(** * Account creation from a seed: seed validation and address preview

    A shallow embedding of the logic of the account-creation modal of
    @polkadot/app-accounts (the component [Create]):
    [deriveValidate], [isHexSeed], [rawValidate], [addressFromSeed],
    [newSeed], [generateSeed] and [updateAddress]; then the state and the
    handlers of the component, with [_onCommit], and the code card of the
    contracts app.

    JavaScript strings are sequences of UTF-16 code units, exceptions are an
    explicit completion type, and the entropy source is threaded as state.
    The functions imported from @polkadot/util, @polkadot/util-crypto,
    @polkadot/keyring and @polkadot/ui-keyring are the fields of the class
    [Imports]; every theorem holds for every instance of it. A second
    rendering of [updateAddress], in the module [Effectful], lets the
    imported functions read and write the world outside. *)

From Stdlib Require Import List NArith Bool String Ascii Arith Lia.
Import ListNotations.

Set Implicit Arguments.

(* ------------------------------------------------------------------ *)
(** ** JavaScript strings *)

Module Js.

(** A string is its sequence of UTF-16 code units; [length] is the
    [.length] property and [++] is concatenation (template literals). *)
Definition CodeUnit := N.
Definition jsstring := list CodeUnit.

Definition lit (s : string) : jsstring :=
  map N_of_ascii (list_ascii_of_string s).

Definition length (s : jsstring) : nat := List.length s.

Definition eqb (a b : jsstring) : bool :=
  if list_eq_dec N.eq_dec a b then true else false.

(** WhiteSpace and LineTerminator code points of ECMAScript, the ones
    [String.prototype.trim] strips. All of them are single code units. *)
Definition isWhiteSpace (c : CodeUnit) : bool :=
  ((9 <=? c) && (c <=? 13)
   || (c =? 32) || (c =? 160) || (c =? 5760)
   || ((8192 <=? c) && (c <=? 8202))
   || (c =? 8232) || (c =? 8233) || (c =? 8239) || (c =? 8287)
   || (c =? 12288) || (c =? 65279))%N.

Fixpoint trimStart (s : jsstring) : jsstring :=
  match s with
  | c :: s' => if isWhiteSpace c then trimStart s' else s
  | [] => []
  end.

Definition trimEnd (s : jsstring) : jsstring := rev (trimStart (rev s)).

Definition trim (s : jsstring) : jsstring := trimEnd (trimStart s).

(** ToBoolean on a [string | null] value: null and the empty string are
    falsy. *)
Definition truthy (v : option jsstring) : bool :=
  match v with
  | Some (_ :: _) => true
  | _ => false
  end.

(** The string is empty or begins with a code unit [trim] keeps. *)
Definition startsClean (s : jsstring) : bool :=
  match s with
  | c :: _ => negb (isWhiteSpace c)
  | [] => true
  end.

End Js.

Import Js.

(* ------------------------------------------------------------------ *)
(** ** Completions: a call returns a value or throws *)

Record JsError := { message : jsstring }.

Inductive Completion (A : Type) : Type :=
| Normal (a : A)
| Throw (e : JsError).

Arguments Normal {A} a.
Arguments Throw {A} e.

Definition bind {A B} (c : Completion A) (k : A -> Completion B) : Completion B :=
  match c with
  | Normal a => k a
  | Throw e => Throw e
  end.

(** [try { body } catch (error) { handler }] *)
Definition try_catch {A} (body : Completion A) (handler : JsError -> Completion A)
  : Completion A :=
  match body with
  | Normal a => Normal a
  | Throw e => handler e
  end.

Declare Scope completion_scope.
Delimit Scope completion_scope with completion.
Notation "x <- c ;; k" := (bind c (fun x => k))
  (at level 61, c at next level, right associativity) : completion_scope.
Open Scope completion_scope.

Definition returns {A} (c : Completion A) : bool :=
  match c with Normal _ => true | Throw _ => false end.

(* ------------------------------------------------------------------ *)
(** ** Data model *)

(** [KeypairType] of @polkadot/util-crypto/types. *)
Inductive KeypairType := ed25519 | sr25519.

Inductive SeedType := bip | raw | dev.

Definition KeypairType_eqb (a b : KeypairType) : bool :=
  match a, b with
  | ed25519, ed25519 | sr25519, sr25519 => true
  | _, _ => false
  end.

Record AddressState := {
  address : option jsstring;
  deriveError : option jsstring;
  derivePath : jsstring;
  isSeedValid : bool;
  pairType : KeypairType;
  seed : jsstring;
  seedType : SeedType
}.

Definition DEFAULT_PAIR_TYPE : KeypairType := sr25519.

(** One segment of a parsed derivation path (the library's
    [DeriveJunction]): its chain code and whether it is hard; [isSoft] is the
    negation of [isHard]. *)
Record DeriveJunction := {
  chainCode : list N;
  isHard : bool
}.

Definition isSoft (j : DeriveJunction) : bool := negb (isHard j).

(** The result of [keyExtractSuri]. *)
Record ExtractResult := {
  password : option jsstring;
  path : list DeriveJunction;
  phrase : jsstring
}.

(* ------------------------------------------------------------------ *)
(** ** The imported functions *)

(** What the modal imports and calls. [keyExtractSuri] and
    [keyring.createFromUri(..).address] may throw; the predicates return a
    boolean; the two generators draw from the entropy source. *)
Class Imports := {
  Entropy : Type;
  keyExtractSuri : jsstring -> Completion ExtractResult;
  isHex : jsstring -> bool;
  mnemonicValidate : jsstring -> bool;
  createFromUri : jsstring -> KeypairType -> Completion jsstring;
  DEV_PHRASE : jsstring;
  mnemonicGenerate : Entropy -> jsstring * Entropy;
  randomAsU8a : Entropy -> list N * Entropy;
  u8aToHex : list N -> jsstring
}.

(* ------------------------------------------------------------------ *)
(** ** The functions of the modal *)

Section Create.

Context {I : Imports}.

Definition softNotAllowed : jsstring :=
  lit "Soft derivation paths are not allowed on ed25519".

Definition deriveValidate (seed derivePath : jsstring) (pairType : KeypairType)
  : Completion (option jsstring) :=
  try_catch
    (r <- keyExtractSuri (seed ++ derivePath) ;;
     (* we don't allow soft for ed25519 *)
     if KeypairType_eqb pairType ed25519 && existsb isSoft (path r)
     then Normal (Some softNotAllowed)
     else Normal None)
    (fun error => Normal (Some (message error))).

Definition isHexSeed (seed : jsstring) : bool :=
  isHex seed && (length seed =? 66).

Definition rawValidate (seed : jsstring) : bool :=
  ((0 <? length seed) && (length seed <=? 32)) || isHexSeed seed.

Definition addressFromSeed (phrase derivePath : jsstring) (pairType : KeypairType)
  : Completion jsstring :=
  createFromUri (trim phrase ++ derivePath) pairType.

(** [seed || u8aToHex(randomAsU8a())]: the random bytes are drawn only when
    the given seed is null, undefined or empty. *)
Definition newSeed (seed : option jsstring) (seedType : SeedType) (w : Entropy)
  : jsstring * Entropy :=
  match seedType with
  | bip => mnemonicGenerate w
  | dev => (DEV_PHRASE, w)
  | raw =>
      match seed with
      | Some (c :: s) => (c :: s, w)
      | _ => let (bytes, w') := randomAsU8a w in (u8aToHex bytes, w')
      end
  end.

(** [pairType = DEFAULT_PAIR_TYPE] as a default parameter. *)
Definition orDefault (pairType : option KeypairType) : KeypairType :=
  match pairType with Some t => t | None => DEFAULT_PAIR_TYPE end.

Definition generateSeed (_seed : option jsstring) (derivePath : jsstring)
  (seedType : SeedType) (pairType : option KeypairType) (w : Entropy)
  : Completion AddressState * Entropy :=
  let pairType := orDefault pairType in
  let (seed, w') := newSeed _seed seedType w in
  (address <- addressFromSeed seed derivePath pairType ;;
   Normal {| address := Some address;
             deriveError := None;
             derivePath := derivePath;
             isSeedValid := true;
             pairType := pairType;
             seedType := seedType;
             seed := seed |},
   w').

(** The seed check of [updateAddress]:
    [seedType === 'raw' ? rawValidate(seed) : mnemonicValidate(seed)]. *)
Definition seedCheck (seedType : SeedType) (seed : jsstring) : bool :=
  match seedType with
  | raw => rawValidate seed
  | _ => mnemonicValidate seed
  end.

Definition updateAddress (seed derivePath : jsstring) (seedType : SeedType)
  (pairType : KeypairType) : Completion AddressState :=
  deriveError <- deriveValidate seed derivePath pairType ;;
  let isSeedValid := seedCheck seedType seed in
  let address : option jsstring := None in
  r <- (if negb (truthy deriveError) && isSeedValid
        then try_catch
               (a <- addressFromSeed seed derivePath pairType ;;
                Normal (Some a, isSeedValid))
               (fun error => Normal (address, false))
        else Normal (address, isSeedValid)) ;;
  Normal {| address := fst r;
            deriveError := deriveError;
            derivePath := derivePath;
            isSeedValid := snd r;
            pairType := pairType;
            seedType := seedType;
            seed := seed |}.

(** *** The change handlers of the component

    The component keeps one [AddressState]; each handler computes the next
    one from the fields of the current one ([setAddress] stores it). *)

Definition SeedType_eqb (a b : SeedType) : bool :=
  match a, b with
  | bip, bip | raw, raw | dev, dev => true
  | _, _ => false
  end.

Definition _onChangeDerive (st : AddressState) (newDerivePath : jsstring)
  : Completion AddressState :=
  updateAddress (seed st) newDerivePath (seedType st) (pairType st).

Definition _onChangeSeed (st : AddressState) (newSeed : jsstring)
  : Completion AddressState :=
  updateAddress newSeed (derivePath st) (seedType st) (pairType st).

Definition _onChangePairType (st : AddressState) (newPairType : KeypairType)
  : Completion AddressState :=
  updateAddress (seed st) (derivePath st) (seedType st) newPairType.

Definition _selectSeedType (st : AddressState) (newSeedType : SeedType)
  (w : Entropy) : Completion AddressState * Entropy :=
  if negb (SeedType_eqb newSeedType (seedType st))
  then generateSeed None (derivePath st) newSeedType (Some (pairType st)) w
  else (Normal st, w).

(** *** Auxiliary definitions for the statements *)

(** The value [deriveValidate] returns. *)
Definition deriveOutcome (s p : jsstring) (t : KeypairType) : option jsstring :=
  match keyExtractSuri (s ++ p) with
  | Throw e => Some (message e)
  | Normal r =>
      if KeypairType_eqb t ed25519 && existsb isSoft (path r)
      then Some softNotAllowed else None
  end.

(** Whether [updateAddress] enters the branch that computes the address. *)
Definition attempts (s p : jsstring) (k : SeedType) (t : KeypairType) : bool :=
  negb (truthy (deriveOutcome s p t)) && seedCheck k s.

(** The parser's errors carry a message (as those of the library do). *)
Definition parseErrorsHaveMessage : Prop :=
  forall suri e, keyExtractSuri suri = Throw e -> message e <> [].

(** The seed validity in the words of the specification: [isSeedValid] is
    the verdict of the seed check, whether or not there is a derivation
    error. *)
Definition isSeedValidIsVerdict (s p : jsstring) (k : SeedType)
  (t : KeypairType) : Prop :=
  exists st, updateAddress s p k t = Normal st
             /\ isSeedValid st = match k with
                                 | raw => rawValidate s
                                 | _ => mnemonicValidate s
                                 end.

(** The seed of each kind in the words of the specification: a new random
    mnemonic, the fixed development phrase, random raw bytes rendered as
    hex. *)
Definition freshSeed (seedType : SeedType) (w : Entropy) : jsstring * Entropy :=
  match seedType with
  | bip => mnemonicGenerate w
  | dev => (DEV_PHRASE, w)
  | raw => let (bytes, w') := randomAsU8a w in (u8aToHex bytes, w')
  end.

(** What the specification says of one call of generate: it returns, its
    seed is the fresh seed of the kind, the address is present, there is no
    derivation error and the seed is valid. *)
Definition generateAsSpecified (_seed : option jsstring) (derivePath : jsstring)
  (seedType : SeedType) (pairType : option KeypairType) (w : Entropy) : Prop :=
  exists st w',
    generateSeed _seed derivePath seedType pairType w = (Normal st, w')
    /\ seed st = fst (freshSeed seedType w)
    /\ address st <> None /\ deriveError st = None /\ isSeedValid st = true.

End Create.

(* ------------------------------------------------------------------ *)
(** ** A reference environment

    Executable stand-ins for the imported functions, after the behaviour of
    the @polkadot libraries of the time: the secret-URI grammar of
    [keyExtractSuri], [isHex], [u8aToHex] and the checks [createFromUri]
    makes before deriving a key. The cryptography itself (word list and
    checksum, key derivation, address encoding) is replaced by tables and
    tags. It serves to run the model on concrete inputs; no theorem about
    all environments depends on it. *)

Module Reference.

Definition isSlash (c : CodeUnit) : bool := (c =? 47)%N.

Definition isDigit (c : CodeUnit) : bool := ((48 <=? c) && (c <=? 57))%N.

(** [a-fA-F0-9] *)
Definition isHexDigit (c : CodeUnit) : bool :=
  (isDigit c || ((97 <=? c) && (c <=? 102)) || ((65 <=? c) && (c <=? 70)))%N.

(** A word character: a letter, a digit or the underscore. *)
Definition isWordChar (c : CodeUnit) : bool :=
  (isDigit c || ((97 <=? c) && (c <=? 122)) || ((65 <=? c) && (c <=? 90))
   || (c =? 95))%N.

(** What [.] does not match. *)
Definition isLineTerminator (c : CodeUnit) : bool :=
  ((c =? 10) || (c =? 13) || (c =? 8232) || (c =? 8233))%N.

(** [isHex(value)]: the value is 0x, or 0x followed by hex digits, and its
    length is even. *)
Definition isHex (s : jsstring) : bool :=
  match s with
  | c0 :: cx :: digits =>
      (c0 =? 48)%N && (cx =? 120)%N && forallb isHexDigit digits
      && Nat.even (length s)
  | _ => false
  end.

Definition hexDigit (n : N) : CodeUnit :=
  (if n <? 10 then 48 + n else 87 + n)%N.

(** [u8aToHex(bytes)]: 0x and two lower-case digits per byte. *)
Definition u8aToHex (bytes : list N) : jsstring :=
  lit "0x" ++ flat_map (fun b => [hexDigit ((b mod 256) / 16); hexDigit (b mod 16)]%N) bytes.

(** The longest prefix without a slash, and the rest. *)
Fixpoint untilSlash (s : jsstring) : jsstring * jsstring :=
  match s with
  | c :: s' =>
      if isSlash c then ([], s)
      else let (a, b) := untilSlash s' in (c :: a, b)
  | [] => ([], [])
  end.

(** The whole of [s] is words of word characters separated by single
    spaces; [inWord] says the previous code unit was a word character. *)
Fixpoint isPhrase (inWord : bool) (s : jsstring) : bool :=
  match s with
  | [] => inWord
  | c :: s' =>
      if isWordChar c then isPhrase true s'
      else if (c =? 32)%N && inWord then isPhrase false s'
      else false
  end.

(** The rest of a secret URI: junctions (one slash for a soft one, two for
    a hard one, then a name of one or more code units other than a slash),
    and then possibly three slashes and a password without line
    terminators, up to the end. *)
Fixpoint junctions (fuel : nat) (r : jsstring)
  : option (list DeriveJunction * option jsstring) :=
  match fuel with
  | O => None
  | S fuel' =>
      match r with
      | [] => Some ([], None)
      | c1 :: r1 =>
          if negb (isSlash c1) then None else
          let hard := match r1 with c2 :: _ => isSlash c2 | [] => false end in
          let r2 := if hard then tl r1 else r1 in
          match r2 with
          | [] => None
          | c3 :: r3 =>
              if isSlash c3 then
                if hard then
                  if existsb isLineTerminator r3 then None
                  else Some ([], Some r3)
                else None
              else
                let (name, rest) := untilSlash r2 in
                match junctions fuel' rest with
                | Some (js, pw) =>
                    Some ({| chainCode := name; isHard := hard |} :: js, pw)
                | None => None
                end
          end
      end
  end.

Definition unableToMatch : JsError :=
  {| message := lit "Unable to match provided value to a secret URI" |}.

Definition keyExtractSuri (suri : jsstring) : Completion ExtractResult :=
  let (ph, rest) := untilSlash suri in
  if isPhrase false ph then
    match junctions (S (length rest)) rest with
    | Some (js, pw) => Normal {| password := pw; path := js; phrase := ph |}
    | None => Throw unableToMatch
    end
  else Throw unableToMatch.

(** [keyExtractPath(derivePath)]: the junctions of a derivation path on
    its own; a path with anything else in it is refused. *)
Definition keyExtractPath (derivePath : jsstring) : Completion (list DeriveJunction) :=
  match junctions (S (length derivePath)) derivePath with
  | Some (js, None) => Normal js
  | _ => Throw {| message := lit "Re-constructed path does not match input" |}
  end.

Definition DEV_PHRASE : jsstring :=
  lit "bottom drive obey lake curtain smoke basket hold race lonely fit walk".

(** Stand-in for the word list: two phrases of the BIP39 test vectors and
    the development phrase. *)
Definition knownMnemonics : list jsstring :=
  [ lit "legal winner thank year wave sausage worth useful legal winner thank yellow";
    lit "letter advice cage absurd amount doctor acoustic avoid letter advice cage above";
    DEV_PHRASE ].

Definition mnemonicValidate (s : jsstring) : bool :=
  existsb (Js.eqb s) knownMnemonics.

Definition countSpaces (s : jsstring) : nat :=
  List.length (filter (fun c => (c =? 32)%N) s).

Definition startsWithTwoSlashes (s : jsstring) : bool :=
  match s with
  | c1 :: c2 :: _ => isSlash c1 && isSlash c2
  | _ => false
  end.

Definition pairTag (t : KeypairType) : jsstring :=
  match t with ed25519 => lit "ed25519" | sr25519 => lit "sr25519" end.

(** [keyring.createFromUri(suri, {}, type).address]. The checks kept are
    the parse of the secret URI, the length check on a phrase that is
    neither hex nor of a mnemonic's word count, and the refusal of soft
    junctions on ed25519; the address is a tag of what the key would be
    derived from. *)
Definition createFromUri (suri : jsstring) (type : KeypairType)
  : Completion jsstring :=
  let suri := if startsWithTwoSlashes suri then DEV_PHRASE ++ suri else suri in
  r <- keyExtractSuri suri ;;
  let words := S (countSpaces (phrase r)) in
  if negb (isHex (phrase r) && (length (phrase r) =? 66))
     && negb (existsb (Nat.eqb words) [12; 15; 18; 21; 24])
     && negb (length (phrase r) <=? 32)
  then Throw {| message := lit "specified phrase is not a valid mnemonic and is invalid as a raw seed at > 32 bytes" |}
  else if KeypairType_eqb type ed25519 && existsb isSoft (path r)
  then Throw {| message := lit "A soft key was found in the path (and is unsupported)" |}
  else Normal (lit "address(" ++ pairTag type ++ lit "," ++ suri ++ lit ")").

(** The entropy source is a counter. *)
Definition randomAsU8a (w : N) : list N * N :=
  (map (fun i => (N.of_nat i + 7 * w) mod 256)%N (seq 0 32), N.succ w).

Definition mnemonicGenerate (w : N) : jsstring * N :=
  (nth (N.to_nat (w mod 2)) knownMnemonics DEV_PHRASE, N.succ w).

(** 32 zero bytes as hex. *)
Definition zeroSeed : jsstring := u8aToHex (repeat 0%N 32).

Definition imports : Imports :=
  Build_Imports keyExtractSuri isHex mnemonicValidate createFromUri
                DEV_PHRASE mnemonicGenerate randomAsU8a u8aToHex.

End Reference.

(** The rejection of soft paths in the words of the specification, where
    the derivation path is parsed on its own: whenever the path holds a soft
    junction, [updateAddress] with ed25519 returns a derivation error and no
    address, whatever the seed. *)
Definition softPathRejected (s p : jsstring) (k : SeedType) : Prop :=
  forall js,
    Reference.keyExtractPath p = Normal js ->
    existsb isSoft js = true ->
    exists st, @updateAddress Reference.imports s p k ed25519 = Normal st
               /\ deriveError st <> None /\ address st = None.

(** An environment like the reference one, except that its parser throws
    an error with the empty message. *)

Module EmptyMessage.

Definition imports : Imports :=
  Build_Imports (fun _ => Throw {| message := [] |})
                Reference.isHex Reference.mnemonicValidate
                Reference.createFromUri Reference.DEV_PHRASE
                Reference.mnemonicGenerate Reference.randomAsU8a
                Reference.u8aToHex.

End EmptyMessage.

(* ------------------------------------------------------------------ *)
(** ** The rest of the modal: name, password, confirmation and commit *)

(** [ActionStatus] of the status queue, as far as [_onCommit] fills it. *)
Module ActionStatus.

Inductive Outcome := success | failure.

Record t := {
  action : jsstring;
  account : option jsstring;
  status : option Outcome;
  message : option jsstring
}.

End ActionStatus.

(** What [_onChangePass] and [_onCommit] call besides. [keyring_addUri]
    gives the json and the address of the pair it stored, or throws;
    [FileSaver_saveAs] and [InputAddress_setLastValue] return nothing and
    may throw; [translate] is the [t] of the props. *)
Class UiImports := {
  Json : Type;
  keyring_isPassValid : jsstring -> bool;
  keyring_addUri :
    jsstring -> jsstring -> jsstring -> KeypairType -> Completion (Json * jsstring);
  JSON_stringify : Json -> jsstring;
  FileSaver_saveAs : jsstring -> jsstring -> Completion unit;
  InputAddress_setLastValue : jsstring -> jsstring -> Completion unit;
  translate : jsstring -> jsstring
}.

Module Modal.

(** The calls [_onCommit] makes to the outside, in order. *)
Inductive Effect :=
| CallAddUri (suri password name : jsstring) (pairType : KeypairType)
| CallSaveAs (blob filename : jsstring)
| CallSetLastValue (type value : jsstring)
| CallOnStatusChange (status : ActionStatus.t)
| CallOnClose.

(** The state the component keeps with [useState]. *)
Record State := {
  addr : AddressState;
  isConfirmationOpen : bool;
  isNameValid : bool;
  name : jsstring;
  isPassValid : bool;
  password : jsstring
}.

(** What the body of [_onCommit] reads and writes: the [status] object it
    fills in, and the calls made so far. *)
Record CommitEnv := {
  status : ActionStatus.t;
  effects : list Effect
}.

Definition Eff (A : Type) : Type := CommitEnv -> Completion A * CommitEnv.

Definition bindE {A B} (m : Eff A) (k : A -> Eff B) : Eff B :=
  fun env =>
    match m env with
    | (Normal a, env') => k a env'
    | (Throw e, env') => (Throw e, env')
    end.

(** An outside call: it is recorded, and returns or throws. *)
Definition call {A} (ev : Effect) (r : Completion A) : Eff A :=
  fun env => (r, {| status := status env; effects := effects env ++ [ev] |}).

(** An assignment to a field of [status]. *)
Definition assign (f : ActionStatus.t -> ActionStatus.t) : Eff unit :=
  fun env => (Normal tt, {| status := f (status env); effects := effects env |}).

Definition tryE {A} (body : Eff A) (handler : JsError -> Eff A) : Eff A :=
  fun env =>
    match body env with
    | (Normal a, env') => (Normal a, env')
    | (Throw e, env') => handler e env'
    end.

Definition setAccount (a : jsstring) (s : ActionStatus.t) : ActionStatus.t :=
  {| ActionStatus.action := ActionStatus.action s;
     ActionStatus.account := Some a;
     ActionStatus.status := ActionStatus.status s;
     ActionStatus.message := ActionStatus.message s |}.

Definition setStatus (o : ActionStatus.Outcome) (s : ActionStatus.t)
  : ActionStatus.t :=
  {| ActionStatus.action := ActionStatus.action s;
     ActionStatus.account := ActionStatus.account s;
     ActionStatus.status := Some o;
     ActionStatus.message := ActionStatus.message s |}.

Definition setMessage (m : jsstring) (s : ActionStatus.t) : ActionStatus.t :=
  {| ActionStatus.action := ActionStatus.action s;
     ActionStatus.account := ActionStatus.account s;
     ActionStatus.status := ActionStatus.status s;
     ActionStatus.message := Some m |}.

Section Component.

Context {I : Imports} {U : UiImports}.

(** [useState(generateSeed(propsSeed, '', propsSeed ? 'raw' : 'bip',
    propsType))] and the initial name, password and confirmation flag. *)
Definition mount (propsSeed : option jsstring) (propsType : option KeypairType)
  (w : Entropy) : Completion State * Entropy :=
  let (r, w') :=
    generateSeed propsSeed [] (if truthy propsSeed then raw else bip) propsType w in
  (a <- r ;;
   Normal {| addr := a;
             isConfirmationOpen := false;
             isNameValid := true; name := lit "new account";
             isPassValid := false; password := [] |},
   w').

(** [!!address && !deriveError && isNameValid && isPassValid && isSeedValid] *)
Definition isValid (st : State) : bool :=
  truthy (address (addr st)) && negb (truthy (deriveError (addr st)))
  && isNameValid st && isPassValid st && isSeedValid (addr st).

Definition setAddress (st : State) (a : AddressState) : State :=
  {| addr := a;
     isConfirmationOpen := isConfirmationOpen st;
     isNameValid := isNameValid st; name := name st;
     isPassValid := isPassValid st; password := password st |}.

Definition _onChangePass (st : State) (password : jsstring) : State :=
  {| addr := addr st;
     isConfirmationOpen := isConfirmationOpen st;
     isNameValid := isNameValid st; name := name st;
     isPassValid := keyring_isPassValid password; password := password |}.

Definition _onChangeName (st : State) (_name : jsstring) : State :=
  let name := trim _name in
  {| addr := addr st;
     isConfirmationOpen := isConfirmationOpen st;
     isNameValid := truthy (Some name); name := name;
     isPassValid := isPassValid st; password := password st |}.

Definition _toggleConfirmation (st : State) : State :=
  {| addr := addr st;
     isConfirmationOpen := negb (isConfirmationOpen st);
     isNameValid := isNameValid st; name := name st;
     isPassValid := isPassValid st; password := password st |}.

(** What the user can do to the open modal, short of committing. The
    entropy state that [SelectSeedType] carries is the one its handler
    finds. *)
Inductive Event :=
| ChangeDerive (newDerivePath : jsstring)
| ChangeSeed (newSeed : jsstring)
| ChangePairType (newPairType : KeypairType)
| SelectSeedType (newSeedType : SeedType) (w : Entropy)
| ChangeName (_name : jsstring)
| ChangePass (password : jsstring)
| ToggleConfirmation.

(** A handler that throws has stored nothing: the state stays. *)
Definition stored (st : State) (c : Completion AddressState) : State :=
  match c with
  | Normal a => setAddress st a
  | Throw _ => st
  end.

Definition handle (st : State) (ev : Event) : State :=
  match ev with
  | ChangeDerive p => stored st (_onChangeDerive (addr st) p)
  | ChangeSeed s => stored st (_onChangeSeed (addr st) s)
  | ChangePairType t => stored st (_onChangePairType (addr st) t)
  | SelectSeedType k w => stored st (fst (_selectSeedType (addr st) k w))
  | ChangeName n => _onChangeName st n
  | ChangePass p => _onChangePass st p
  | ToggleConfirmation => _toggleConfirmation st
  end.

Definition run (st : State) (evs : list Event) : State :=
  fold_left handle evs st.

(** The events whose handler calls [updateAddress]. *)
Definition isEdit (ev : Event) : bool :=
  match ev with
  | ChangeDerive _ | ChangeSeed _ | ChangePairType _ => true
  | _ => false
  end.

(** The value shown in the address row: [isSeedValid ? address : '']. *)
Definition shownAddress (st : State) : option jsstring :=
  if isSeedValid (addr st) then address (addr st) else Some [].

(** The [try] block of [_onCommit]. *)
Definition commitBody (st : State) : Eff unit :=
  let suri := seed (addr st) ++ derivePath (addr st) in
  bindE (call (CallAddUri suri (password st) (name st) (pairType (addr st)))
              (keyring_addUri suri (password st) (name st) (pairType (addr st))))
    (fun r =>
  let blob := JSON_stringify (fst r) in
  let address := snd r in
  let filename := address ++ lit ".json" in
  bindE (call (CallSaveAs blob filename) (FileSaver_saveAs blob filename))
    (fun _ =>
  bindE (assign (setAccount address)) (fun _ =>
  (* status.status = pair ? 'success' : 'error', and the pair is an object *)
  bindE (assign (setStatus ActionStatus.success)) (fun _ =>
  bindE (assign (setMessage (translate (lit "created account")))) (fun _ =>
  call (CallSetLastValue (lit "account") address)
       (InputAddress_setLastValue (lit "account") address)))))).

(** The [catch] block of [_onCommit]. *)
Definition commitCatch (error : JsError) : Eff unit :=
  bindE (assign (setStatus ActionStatus.failure)) (fun _ =>
  assign (setMessage (message error))).

Definition newStatus : ActionStatus.t :=
  {| ActionStatus.action := lit "create";
     ActionStatus.account := None;
     ActionStatus.status := None;
     ActionStatus.message := None |}.

(** [_onCommit]: the next state and the outside calls, in order. *)
Definition _onCommit (st : State) : State * list Effect :=
  if negb (isValid st) then (st, [])
  else
    let env := snd (tryE (commitBody st) commitCatch
                         {| status := newStatus; effects := [] |}) in
    (_toggleConfirmation st,
     effects env ++ [CallOnStatusChange (status env); CallOnClose]).

(** The library's [addUri] stores the pair that [createFromUri] would
    create for the same URI and type. *)
Definition addUriAgrees : Prop :=
  forall suri pw nm t json a,
    keyring_addUri suri pw nm t = Normal (json, a) ->
    createFromUri suri t = Normal a.

(** What holds of every state the modal reaches. *)
Definition previewIsCurrent (st : State) : Prop :=
  forall a, address (addr st) = Some a ->
    createFromUri (trim (seed (addr st)) ++ derivePath (addr st))
                  (pairType (addr st)) = Normal a
    /\ truthy (deriveError (addr st)) = false
    /\ isSeedValid (addr st) = true.

Definition nameIsTrimmed (st : State) : Prop :=
  trim (name st) = name st
  /\ isNameValid st = negb (forallb isWhiteSpace (name st)).

Definition passIsChecked (st : State) : Prop :=
  isPassValid st = true -> keyring_isPassValid (password st) = true.

(** The [try] block throws [e]: [acc] is the account the status holds by
    then, set only when the call that throws is the last one. *)
Definition commitFails (st : State) (acc : option jsstring) (e : JsError)
  : Prop :=
  let thrownBy := keyring_addUri (seed (addr st) ++ derivePath (addr st))
                    (password st) (name st) (pairType (addr st)) in
  (thrownBy = Throw e /\ acc = None)
  \/ exists json a,
       thrownBy = Normal (json, a)
       /\ ((FileSaver_saveAs (JSON_stringify json) (a ++ lit ".json") = Throw e
            /\ acc = None)
           \/ (FileSaver_saveAs (JSON_stringify json) (a ++ lit ".json")
               = Normal tt
               /\ InputAddress_setLastValue (lit "account") a = Throw e
               /\ acc = Some a)).

Definition invariant (st : State) : Prop :=
  previewIsCurrent st /\ nameIsTrimmed st /\ passIsChecked st.

(** The two shapes of the status [_onCommit] hands to [onStatusChange]. *)
Definition createdStatus (a : jsstring) : ActionStatus.t :=
  {| ActionStatus.action := lit "create";
     ActionStatus.account := Some a;
     ActionStatus.status := Some ActionStatus.success;
     ActionStatus.message := Some (translate (lit "created account")) |}.

Definition failedStatus (acc : option jsstring) (e : JsError) : ActionStatus.t :=
  {| ActionStatus.action := lit "create";
     ActionStatus.account := acc;
     ActionStatus.status := Some ActionStatus.failure;
     ActionStatus.message := Some (message e) |}.

(** The three calls of the [try] block all return. *)
Definition commitSucceeds (st : State) (a : jsstring) : Prop :=
  exists json,
    keyring_addUri (seed (addr st) ++ derivePath (addr st)) (password st)
                   (name st) (pairType (addr st)) = Normal (json, a)
    /\ FileSaver_saveAs (JSON_stringify json) (a ++ lit ".json") = Normal tt
    /\ InputAddress_setLastValue (lit "account") a = Normal tt.

End Component.

End Modal.

(* ------------------------------------------------------------------ *)
(** ** The code card of the contracts app (Codes/Code.tsx) *)

Module Code.

Record State := {
  isForgetOpen : bool;
  isRemoveABIOpen : bool
}.

(** [props.code], as far as the card reads it. *)
Record CodeStored := {
  codeHash : jsstring
}.

Inductive ModalKind := Forget | RemoveABI.

Inductive Effect :=
| CallForgetCode (codeHash : jsstring)
| CallConsoleError (error : JsError).

Definition initialState : State :=
  {| isForgetOpen := false; isRemoveABIOpen := false |}.

Definition toggleForget (st : State) : State :=
  {| isForgetOpen := negb (isForgetOpen st);
     isRemoveABIOpen := isRemoveABIOpen st |}.

Definition toggleRemoveABI (st : State) : State :=
  {| isForgetOpen := isForgetOpen st;
     isRemoveABIOpen := negb (isRemoveABIOpen st) |}.

(** [renderModals]: null without a code, else the open modals in order. *)
Definition renderModals (code : option CodeStored) (st : State)
  : option (list ModalKind) :=
  match code with
  | None => None
  | Some _ =>
      Some ((if isForgetOpen st then [Forget] else [])
            ++ (if isRemoveABIOpen st then [RemoveABI] else []))
  end.

Section OnForget.

(** [contracts.forgetCode] of the store: it returns or throws. *)
Variable forgetCode : jsstring -> Completion unit.

(** [onForget]: nothing without a code hash; else [forgetCode] in a [try]
    whose [catch] logs the error and whose [finally] toggles the modal. *)
Definition onForget (code : CodeStored) (st : State) : State * list Effect :=
  if negb (truthy (Some (codeHash code))) then (st, [])
  else
    let tried :=
      match forgetCode (codeHash code) with
      | Normal _ => [CallForgetCode (codeHash code)]
      | Throw error => [CallForgetCode (codeHash code); CallConsoleError error]
      end in
    (toggleForget st, tried).

Inductive Event := ToggleForget | ToggleRemoveABI | OnForget.

Definition Event_eq_dec (a b : Event) : {a = b} + {a <> b}.
Proof. decide equality. Defined.

Definition handle (code : CodeStored) (st : State) (ev : Event) : State :=
  match ev with
  | ToggleForget => toggleForget st
  | ToggleRemoveABI => toggleRemoveABI st
  | OnForget => fst (onForget code st)
  end.

End OnForget.

End Code.

(* ------------------------------------------------------------------ *)
(** ** [updateAddress] over imports that may read and write the outside

    Above, the imported functions are functions of their arguments. Here
    each of them also takes the state of the world outside (the keyring and
    its settings, the entropy source) and returns the state it leaves, so
    that what [updateAddress] does to the world, and what it owes to it, can
    be stated. The control flow is that of the source: the parse first, the
    seed check next ([isHex] only when the length test fails), the address
    last and only when both pass. *)

Module Effectful.

Class WorldImports := {
  World : Type;
  keyExtractSuriW : jsstring -> World -> Completion ExtractResult * World;
  isHexW : jsstring -> World -> bool * World;
  mnemonicValidateW : jsstring -> World -> bool * World;
  createFromUriW : jsstring -> KeypairType -> World -> Completion jsstring * World;
  DEV_PHRASE_W : jsstring;
  mnemonicGenerateW : World -> jsstring * World;
  randomAsU8aW : World -> list N * World;
  u8aToHexW : list N -> jsstring
}.

Section Programs.

Context {W : WorldImports}.

Definition M (A : Type) : Type := World -> Completion A * World.

Definition retM {A} (a : A) : M A := fun w => (Normal a, w).

Definition bindM {A B} (m : M A) (k : A -> M B) : M B :=
  fun w =>
    match m w with
    | (Normal a, w') => k a w'
    | (Throw e, w') => (Throw e, w')
    end.

Definition tryM {A} (body : M A) (handler : JsError -> M A) : M A :=
  fun w =>
    match body w with
    | (Normal a, w') => (Normal a, w')
    | (Throw e, w') => handler e w'
    end.

(** A call that returns a boolean and does not throw. *)
Definition test (f : World -> bool * World) : M bool :=
  fun w => let (b, w') := f w in (Normal b, w').

Definition deriveValidateW (seed derivePath : jsstring) (pairType : KeypairType)
  : M (option jsstring) :=
  tryM
    (bindM (keyExtractSuriW (seed ++ derivePath)) (fun r =>
       if KeypairType_eqb pairType ed25519 && existsb isSoft (path r)
       then retM (Some softNotAllowed)
       else retM None))
    (fun error => retM (Some (message error))).

Definition isHexSeedW (seed : jsstring) : M bool :=
  bindM (test (isHexW seed)) (fun b => retM (b && (length seed =? 66))).

Definition rawValidateW (seed : jsstring) : M bool :=
  if (0 <? length seed) && (length seed <=? 32) then retM true
  else isHexSeedW seed.

Definition addressFromSeedW (phrase derivePath : jsstring)
  (pairType : KeypairType) : M jsstring :=
  createFromUriW (trim phrase ++ derivePath) pairType.

Definition updateAddressW (seed derivePath : jsstring) (seedType : SeedType)
  (pairType : KeypairType) : M AddressState :=
  bindM (deriveValidateW seed derivePath pairType) (fun deriveError =>
  bindM (match seedType with
         | raw => rawValidateW seed
         | _ => test (mnemonicValidateW seed)
         end) (fun isSeedValid =>
  let address : option jsstring := None in
  bindM (if negb (truthy deriveError) && isSeedValid
         then tryM
                (bindM (addressFromSeedW seed derivePath pairType) (fun a =>
                 retM (Some a, isSeedValid)))
                (fun error => retM (address, false))
         else retM (address, isSeedValid)) (fun r =>
  retM {| address := fst r;
          deriveError := deriveError;
          derivePath := derivePath;
          isSeedValid := snd r;
          pairType := pairType;
          seedType := seedType;
          seed := seed |}))).

(** The four functions [updateAddress] calls leave the world as it is. *)
Definition readOnly : Prop :=
  (forall s w, snd (keyExtractSuriW s w) = w)
  /\ (forall s w, snd (isHexW s w) = w)
  /\ (forall s w, snd (mnemonicValidateW s w) = w)
  /\ (forall u t w, snd (createFromUriW u t w) = w).

(** What they return does not depend on the world. *)
Definition worldIndependent : Prop :=
  (forall s w1 w2, fst (keyExtractSuriW s w1) = fst (keyExtractSuriW s w2))
  /\ (forall s w1 w2, fst (isHexW s w1) = fst (isHexW s w2))
  /\ (forall s w1 w2, fst (mnemonicValidateW s w1) = fst (mnemonicValidateW s w2))
  /\ (forall u t w1 w2, fst (createFromUriW u t w1) = fst (createFromUriW u t w2)).

(** The imports as functions of their arguments, read in the world [w]. *)
Definition importsAt (w : World) : Imports :=
  Build_Imports (fun s => fst (keyExtractSuriW s w))
                (fun s => fst (isHexW s w))
                (fun s => fst (mnemonicValidateW s w))
                (fun u t => fst (createFromUriW u t w))
                DEV_PHRASE_W mnemonicGenerateW randomAsU8aW u8aToHexW.

End Programs.

End Effectful.

(** Two worlds for the reference environment. In the first the world is the
    address format of the keyring, which [createFromUri] reads into the
    address and nothing writes. In the second it is a count of the keys
    derived so far, which [createFromUri] reads into the address and
    advances. *)
Module ReferenceWorld.

Definition formatted (format : N) (c : Completion jsstring) : Completion jsstring :=
  a <- c ;; Normal (Reference.hexDigit (format mod 16) :: a).

Definition reading : Effectful.WorldImports :=
  Effectful.Build_WorldImports
    (fun s w => (Reference.keyExtractSuri s, w))
    (fun s w => (Reference.isHex s, w))
    (fun s w => (Reference.mnemonicValidate s, w))
    (fun u t (w : N) => (formatted w (Reference.createFromUri u t), w))
    Reference.DEV_PHRASE Reference.mnemonicGenerate Reference.randomAsU8a
    Reference.u8aToHex.

Definition counting : Effectful.WorldImports :=
  Effectful.Build_WorldImports
    (fun s w => (Reference.keyExtractSuri s, w))
    (fun s w => (Reference.isHex s, w))
    (fun s w => (Reference.mnemonicValidate s, w))
    (fun u t (w : N) => (formatted w (Reference.createFromUri u t), N.succ w))
    Reference.DEV_PHRASE Reference.mnemonicGenerate Reference.randomAsU8a
    Reference.u8aToHex.

End ReferenceWorld.

(** Stand-ins for what the commit calls, to go with the reference
    environment: a password of 1 to 32 code units is accepted, [addUri]
    stores what [createFromUri] creates, and saving never fails. *)
Module ReferenceUi.

Definition addUri (suri pw nm : jsstring) (t : KeypairType)
  : Completion (jsstring * jsstring) :=
  a <- Reference.createFromUri suri t ;;
  Normal (lit "{address:" ++ a ++ lit ",name:" ++ nm ++ lit "}", a).

Definition imports : UiImports :=
  Build_UiImports (fun pw => (0 <? length pw) && (length pw <=? 32))
                  addUri (fun json => json)
                  (fun _ _ => Normal tt) (fun _ _ => Normal tt)
                  (fun s => s).

(** A hard path, a password and a name are typed. *)
Definition typed : list (@Modal.Event Reference.imports) :=
  [ Modal.ChangeDerive (lit "//hard");
    Modal.ChangePass (lit "secret");
    Modal.ChangeName (lit "  my account ") ].

End ReferenceUi.

(* ------------------------------------------------------------------ *)
(** ** Facts about [trim] *)

Module TrimFacts.

Lemma trimStart_clean (s : jsstring) : startsClean (trimStart s) = true.
Proof.
  induction s as [|c s IH]; simpl; [reflexivity|].
  destruct (isWhiteSpace c) eqn:E; [exact IH|].
  simpl. now rewrite E.
Qed.

Lemma trimStart_of_clean (s : jsstring) :
  startsClean s = true -> trimStart s = s.
Proof.
  destruct s as [|c s]; simpl; [reflexivity|].
  destruct (isWhiteSpace c); [discriminate|reflexivity].
Qed.

Lemma trimStart_idem (s : jsstring) : trimStart (trimStart s) = trimStart s.
Proof. apply trimStart_of_clean, trimStart_clean. Qed.

(** What [trimStart] removes is a run of white space. *)
Lemma trimStart_split (s : jsstring) :
  exists ws, s = ws ++ trimStart s /\ forallb isWhiteSpace ws = true.
Proof.
  induction s as [|c s (ws & Hs & Hws)]; simpl.
  - now exists [].
  - destruct (isWhiteSpace c) eqn:E.
    + exists (c :: ws). simpl. rewrite E, Hws. split; [now f_equal|reflexivity].
    + now exists [].
Qed.

Lemma trimEnd_split (s : jsstring) :
  exists ws, s = trimEnd s ++ ws /\ forallb isWhiteSpace ws = true.
Proof.
  destruct (trimStart_split (rev s)) as (ws & Hs & Hws).
  exists (rev ws). split.
  - unfold trimEnd. rewrite <- rev_app_distr, <- Hs. now rewrite rev_involutive.
  - rewrite forallb_forall in *. intros c Hc. apply Hws. now apply in_rev.
Qed.

Lemma trimEnd_idem (s : jsstring) : trimEnd (trimEnd s) = trimEnd s.
Proof.
  unfold trimEnd. now rewrite rev_involutive, trimStart_idem.
Qed.

Lemma trimEnd_keeps_clean (s : jsstring) :
  startsClean s = true -> startsClean (trimEnd s) = true.
Proof.
  intros H. destruct (trimEnd_split s) as (ws & Hs & _).
  destruct (trimEnd s) as [|c t]; [reflexivity|].
  rewrite Hs in H. exact H.
Qed.

Lemma trim_idem (s : jsstring) : trim (trim s) = trim s.
Proof.
  unfold trim.
  rewrite (trimStart_of_clean (trimEnd (trimStart s))).
  - apply trimEnd_idem.
  - apply trimEnd_keeps_clean, trimStart_clean.
Qed.

(** A seed that neither begins nor ends with white space is its own trim. *)
Lemma trim_of_clean (s : jsstring) :
  startsClean s = true -> startsClean (rev s) = true -> trim s = s.
Proof.
  intros H1 H2. unfold trim, trimEnd.
  rewrite (trimStart_of_clean s H1), (trimStart_of_clean (rev s) H2).
  apply rev_involutive.
Qed.

End TrimFacts.

(* ------------------------------------------------------------------ *)
(** ** How the two operations compute their result *)

Section Unfolding.

Context {I : Imports}.

Lemma deriveValidate_returns (s p : jsstring) (t : KeypairType) :
  deriveValidate s p t = Normal (deriveOutcome s p t).
Proof.
  unfold deriveValidate, deriveOutcome, try_catch, bind.
  destruct (keyExtractSuri (s ++ p)) as [r|e]; [|reflexivity].
  now destruct (KeypairType_eqb t ed25519 && existsb isSoft (path r)).
Qed.

Lemma updateAddress_returns (s p : jsstring) (k : SeedType) (t : KeypairType) :
  updateAddress s p k t =
  Normal {| address :=
              if attempts s p k t
              then match addressFromSeed s p t with
                   | Normal a => Some a
                   | Throw _ => None
                   end
              else None;
            deriveError := deriveOutcome s p t;
            derivePath := p;
            isSeedValid :=
              if attempts s p k t
              then returns (addressFromSeed s p t)
              else seedCheck k s;
            pairType := t;
            seedType := k;
            seed := s |}.
Proof.
  unfold updateAddress, attempts.
  rewrite deriveValidate_returns. simpl.
  destruct (negb (truthy (deriveOutcome s p t)) && seedCheck k s) eqn:E;
    [|reflexivity].
  apply andb_prop in E as [_ Ev].
  destruct (addressFromSeed s p t); simpl; now rewrite ?Ev.
Qed.

Lemma generateSeed_returns (_seed : option jsstring) (p : jsstring)
  (k : SeedType) (t : option KeypairType) (w : Entropy) :
  generateSeed _seed p k t w =
  (let t' := orDefault t in
   match addressFromSeed (fst (newSeed _seed k w)) p t' with
   | Normal a =>
       Normal {| address := Some a; deriveError := None; derivePath := p;
                 isSeedValid := true; pairType := t'; seedType := k;
                 seed := fst (newSeed _seed k w) |}
   | Throw e => Throw e
   end,
   snd (newSeed _seed k w)).
Proof.
  unfold generateSeed. destruct (newSeed _seed k w) as [s w']. simpl.
  now destruct (addressFromSeed s p _).
Qed.

Lemma deriveOutcome_truthy (s p : jsstring) (t : KeypairType) :
  parseErrorsHaveMessage ->
  deriveOutcome s p t <> None -> truthy (deriveOutcome s p t) = true.
Proof.
  unfold deriveOutcome. intros Hmsg.
  destruct (keyExtractSuri (s ++ p)) as [r|e] eqn:E.
  - destruct (KeypairType_eqb t ed25519 && existsb isSoft (path r));
      [reflexivity|congruence].
  - intros _. specialize (Hmsg _ _ E). simpl.
    destruct (message e); [congruence|reflexivity].
Qed.

End Unfolding.

(* ------------------------------------------------------------------ *)
(** ** Facts about the reference environment *)

Module ReferenceFacts.

Lemma keyExtractSuri_throws (suri : jsstring) (e : JsError) :
  Reference.keyExtractSuri suri = Throw e -> e = Reference.unableToMatch.
Proof.
  unfold Reference.keyExtractSuri.
  destruct (Reference.untilSlash suri) as [ph rest].
  destruct (Reference.isPhrase false ph); [|congruence].
  destruct (Reference.junctions (S (length rest)) rest) as [[js pw]|]; congruence.
Qed.

Lemma parse_errors_have_message : @parseErrorsHaveMessage Reference.imports.
Proof.
  intros suri e H. apply keyExtractSuri_throws in H. subst e. discriminate.
Qed.

(** In the reference environment a hex seed is 0x and 64 hex digits. *)
Lemma isHexSeed_iff (s : jsstring) :
  @isHexSeed Reference.imports s = true <->
  exists digits, s = lit "0x" ++ digits /\ length digits = 64
                 /\ forallb Reference.isHexDigit digits = true.
Proof.
  unfold isHexSeed. cbn [isHex Reference.imports]. unfold Reference.isHex. split.
  - intros H. apply andb_prop in H as [H Hlen].
    apply Nat.eqb_eq in Hlen.
    destruct s as [|c0 [|cx digits]]; try discriminate.
    apply andb_prop in H as [H _].
    apply andb_prop in H as [H Hd].
    apply andb_prop in H as [H0 Hx].
    apply N.eqb_eq in H0. apply N.eqb_eq in Hx. subst c0 cx.
    exists digits. repeat split; [|assumption].
    unfold length in *. simpl in Hlen. lia.
  - intros (digits & -> & Hlen & Hd).
    unfold length in *. cbn [lit list_ascii_of_string map app].
    change (N_of_ascii "0") with 48%N. change (N_of_ascii "x") with 120%N.
    cbn [List.length]. rewrite Hlen, Hd. reflexivity.
Qed.

(** The hex rendering of 32 random bytes passes [rawValidate]. *)
Lemma hexDigit_isHexDigit (n : N) : (n < 16)%N -> Reference.isHexDigit (Reference.hexDigit n) = true.
Proof.
  intros H. unfold Reference.hexDigit, Reference.isHexDigit, Reference.isDigit.
  destruct (n <? 10)%N eqn:E.
  - apply N.ltb_lt in E.
    replace (48 <=? 48 + n)%N with true by (symmetry; apply N.leb_le; lia).
    replace (48 + n <=? 57)%N with true by (symmetry; apply N.leb_le; lia).
    reflexivity.
  - apply N.ltb_ge in E.
    replace (97 <=? 87 + n)%N with true by (symmetry; apply N.leb_le; lia).
    replace (87 + n <=? 102)%N with true by (symmetry; apply N.leb_le; lia).
    now rewrite orb_true_r.
Qed.

Lemma u8aToHex_digits (bytes : list N) :
  exists digits, Reference.u8aToHex bytes = lit "0x" ++ digits
                 /\ length digits = 2 * List.length bytes
                 /\ forallb Reference.isHexDigit digits = true.
Proof.
  unfold Reference.u8aToHex. eexists. split; [reflexivity|].
  induction bytes as [|b bytes [IHl IHd]]; [now split|].
  split.
  - unfold length in *. cbn [flat_map app List.length]. rewrite IHl.
    simpl. lia.
  - cbn [flat_map app forallb]. rewrite IHd.
    rewrite !hexDigit_isHexDigit; [reflexivity| |].
    + apply N.mod_lt. discriminate.
    + apply N.Div0.div_lt_upper_bound. change (16 * 16)%N with 256%N.
      apply N.mod_lt. discriminate.
Qed.

Lemma rawValidate_u8aToHex (bytes : list N) :
  List.length bytes = 32 -> @rawValidate Reference.imports (Reference.u8aToHex bytes) = true.
Proof.
  intros H. unfold rawValidate. apply orb_true_iff. right.
  apply isHexSeed_iff.
  destruct (u8aToHex_digits bytes) as (digits & E & Hl & Hd).
  exists digits. repeat split; [assumption| |assumption].
  rewrite Hl, H. reflexivity.
Qed.

End ReferenceFacts.

(* ------------------------------------------------------------------ *)
(** ** Properties of [updateAddress] and [generateSeed] *)

Section Properties.

Context {I : Imports}.

(** C1. The state returned by [updateAddress] or by [generateSeed] never
    holds both an address and a derivation error. [updateAddress] tests the
    error with [!deriveError], so this rests on the parser's errors carrying
    a non-empty message. *)
Theorem address_excludes_deriveError :
  parseErrorsHaveMessage ->
  forall (s p : jsstring) (k : SeedType) (t : KeypairType),
    (exists st, updateAddress s p k t = Normal st
                /\ ~ (address st <> None /\ deriveError st <> None))
    /\ (forall _seed topt w st w',
          generateSeed _seed p k topt w = (Normal st, w') ->
          ~ (address st <> None /\ deriveError st <> None)).
Proof.
  intros Hmsg s p k t. split.
  - eexists. split; [apply updateAddress_returns|].
    cbn [address deriveError]. intros [Ha Hd].
    apply (deriveOutcome_truthy s p t Hmsg) in Hd.
    unfold attempts in Ha. rewrite Hd in Ha. now apply Ha.
  - intros _seed topt w st w' H. rewrite generateSeed_returns in H.
    cbv zeta in H. destruct (addressFromSeed _ p _); [|discriminate].
    injection H as <- _. cbn [deriveError]. tauto.
Qed.

(** C2, as amended. With the ed25519 algorithm, when the parse of the seed
    followed by the derivation path contains a soft segment, [updateAddress] returns a state with the
    derivation error present and no address. *)
Theorem soft_path_rejected_on_ed25519 (s p : jsstring) (k : SeedType)
  (r : ExtractResult) :
  keyExtractSuri (s ++ p) = Normal r ->
  existsb isSoft (path r) = true ->
  exists st, updateAddress s p k ed25519 = Normal st
             /\ deriveError st = Some softNotAllowed
             /\ deriveError st <> None
             /\ address st = None.
Proof.
  intros Hr Hsoft.
  assert (Hd : deriveOutcome s p ed25519 = Some softNotAllowed).
  { unfold deriveOutcome. rewrite Hr, Hsoft. reflexivity. }
  eexists. split; [apply updateAddress_returns|].
  cbn [address deriveError]. unfold attempts. rewrite Hd.
  repeat split. discriminate.
Qed.

(** C3. [rawValidate] accepts exactly the strings of 1 to 32 code units and
    the hex strings of 66 code units. *)
Theorem rawValidate_iff (s : jsstring) :
  rawValidate s = true <->
  (1 <= length s <= 32) \/ (isHex s = true /\ length s = 66).
Proof.
  unfold rawValidate, isHexSeed.
  rewrite orb_true_iff, !andb_true_iff, Nat.ltb_lt, Nat.leb_le, Nat.eqb_eq.
  intuition lia.
Qed.

(** C4. [updateAddress] always returns: a failure of the path parse comes
    back as the [deriveError] string, and a failure of the address
    computation leaves no address and, when no derivation error stands in
    the way, [isSeedValid] false. *)
Theorem updateAddress_never_throws (s p : jsstring) (k : SeedType)
  (t : KeypairType) :
  exists st, updateAddress s p k t = Normal st
    /\ (forall e, keyExtractSuri (s ++ p) = Throw e ->
                  deriveError st = Some (message e))
    /\ (forall e, addressFromSeed s p t = Throw e ->
                  address st = None
                  /\ (truthy (deriveError st) = false -> isSeedValid st = false)).
Proof.
  eexists. split; [apply updateAddress_returns|].
  cbn [address deriveError isSeedValid]. split.
  - intros e He. unfold deriveOutcome. now rewrite He.
  - intros e He. rewrite He. split.
    + now destruct (attempts s p k t).
    + intros Hd. unfold attempts. rewrite Hd. simpl.
      now destruct (seedCheck k s).
Qed.

(** C5, as amended. [generateSeed] takes its seed by kind: a new mnemonic
    for bip, the development phrase for dev, and for raw the supplied seed
    when there is one and it is not empty, else random bytes rendered as
    hex. Whenever the address computation for that seed returns, so does
    [generateSeed], with the address present, no derivation error and
    [isSeedValid] true. *)
Theorem generateSeed_seed_and_address (_seed : option jsstring) (p : jsstring)
  (k : SeedType) (topt : option KeypairType) (w : Entropy) (a : jsstring) :
  addressFromSeed (fst (newSeed _seed k w)) p (orDefault topt) = Normal a ->
  newSeed _seed k w =
    match k, _seed with
    | raw, Some (c :: s) => (c :: s, w)
    | _, _ => freshSeed k w
    end
  /\ generateSeed _seed p k topt w =
     (Normal {| address := Some a; deriveError := None; derivePath := p;
                isSeedValid := true; pairType := orDefault topt;
                seedType := k; seed := fst (newSeed _seed k w) |},
      snd (newSeed _seed k w)).
Proof.
  intros Ha. split.
  - destruct k; reflexivity.
  - rewrite generateSeed_returns. cbv zeta. now rewrite Ha.
Qed.

(** C6, as amended. With a derivation error present, the [isSeedValid] of
    [updateAddress] is the verdict of the seed check ([rawValidate] for a
    raw seed, [mnemonicValidate] otherwise), so a state can carry both; with
    no derivation error it is that verdict unless the address computation
    throws, and then it is false. *)
Theorem isSeedValid_verdict :
  parseErrorsHaveMessage ->
  forall (s p : jsstring) (k : SeedType) (t : KeypairType),
  let verdict := match k with
                 | raw => rawValidate s
                 | _ => mnemonicValidate s
                 end in
  exists st, updateAddress s p k t = Normal st
    /\ (deriveError st <> None -> isSeedValid st = verdict)
    /\ (deriveError st = None ->
        isSeedValid st = verdict && returns (addressFromSeed s p t))
    /\ (deriveError st = None -> verdict = true ->
        forall e, addressFromSeed s p t = Throw e -> isSeedValid st = false).
Proof.
  intros Hmsg s p k t. cbv zeta.
  change (match k with raw => rawValidate s | _ => mnemonicValidate s end)
    with (seedCheck k s).
  eexists. split; [apply updateAddress_returns|].
  cbn [deriveError isSeedValid]. unfold attempts. split; [|split].
  - intros Hd. apply (deriveOutcome_truthy s p t Hmsg) in Hd.
    now rewrite Hd.
  - intros Hd. rewrite Hd. simpl. now destruct (seedCheck k s).
  - intros Hd Hk e He. now rewrite Hd, Hk, He.
Qed.

(** C7. A state of [updateAddress] that holds an address has no derivation
    error and a valid seed; a state of [generateSeed] always holds an
    address, no derivation error and a valid seed. *)
Theorem address_implies_valid :
  parseErrorsHaveMessage ->
  forall (s p : jsstring) (k : SeedType) (t : KeypairType),
    (exists st, updateAddress s p k t = Normal st
                /\ (address st <> None ->
                    deriveError st = None /\ isSeedValid st = true))
    /\ (forall _seed topt w st w',
          generateSeed _seed p k topt w = (Normal st, w') ->
          address st <> None /\ deriveError st = None
          /\ isSeedValid st = true).
Proof.
  intros Hmsg s p k t. split.
  - eexists. split; [apply updateAddress_returns|].
    cbn [address deriveError isSeedValid].
    destruct (attempts s p k t) eqn:E; [|congruence].
    intros Ha. unfold attempts in E. apply andb_prop in E as [E _].
    split.
    + destruct (deriveOutcome s p t) eqn:Hd; [|reflexivity].
      rewrite <- Hd, (deriveOutcome_truthy s p t Hmsg) in E;
        [discriminate|congruence].
    + destruct (addressFromSeed s p t); [reflexivity|congruence].
  - intros _seed topt w st w' H. rewrite generateSeed_returns in H.
    cbv zeta in H. destruct (addressFromSeed _ p _); [|discriminate].
    injection H as <- _. cbn [address deriveError isSeedValid].
    repeat split. discriminate.
Qed.

(** C8. With the kind dev the seed is [DEV_PHRASE], whatever the supplied
    seed, the derivation path, the algorithm and the entropy are, and no
    entropy is drawn; it is the seed of every state [generateSeed] returns
    for that kind. *)
Theorem dev_seed_is_DEV_PHRASE (_seed : option jsstring) (p : jsstring)
  (topt : option KeypairType) (w : Entropy) :
  newSeed _seed dev w = (DEV_PHRASE, w)
  /\ generateSeed _seed p dev topt w =
     (match addressFromSeed DEV_PHRASE p (orDefault topt) with
      | Normal a =>
          Normal {| address := Some a; deriveError := None; derivePath := p;
                    isSeedValid := true; pairType := orDefault topt;
                    seedType := dev; seed := DEV_PHRASE |}
      | Throw e => Throw e
      end, w)
  /\ (forall st w', generateSeed _seed p dev topt w = (Normal st, w') ->
                    seed st = DEV_PHRASE).
Proof.
  split; [reflexivity|]. split.
  - now rewrite generateSeed_returns.
  - intros st w' H. rewrite generateSeed_returns in H. cbv zeta in H.
    cbn [newSeed fst snd] in H.
    destruct (addressFromSeed DEV_PHRASE p _); [|discriminate].
    now injection H as <- _.
Qed.

(** The state [updateAddress] returns echoes its four arguments, and
    calling again with the echoed fields returns the very same state. *)
Lemma updateAddress_echoes (s p : jsstring) (k : SeedType) (t : KeypairType) :
  exists st, updateAddress s p k t = Normal st
    /\ seed st = s /\ derivePath st = p /\ seedType st = k /\ pairType st = t
    /\ updateAddress (seed st) (derivePath st) (seedType st) (pairType st)
       = Normal st.
Proof.
  eexists. split; [apply updateAddress_returns|].
  cbn [seed derivePath seedType pairType].
  repeat split. apply updateAddress_returns.
Qed.


(** X1. [generateSeed] has no handler around the address computation: when the
    library throws for the seed and path, [generateSeed] throws the same
    error, after the seed was drawn. *)
Theorem generateSeed_propagates_throw (_seed : option jsstring) (p : jsstring)
  (k : SeedType) (topt : option KeypairType) (w : Entropy) (e : JsError) :
  addressFromSeed (fst (newSeed _seed k w)) p (orDefault topt) = Throw e ->
  generateSeed _seed p k topt w = (Throw e, snd (newSeed _seed k w)).
Proof.
  intros He. rewrite generateSeed_returns. cbv zeta. now rewrite He.
Qed.

(** X2. Each of the three handlers that call [updateAddress] is idempotent:
    handling the same new value again, from the state the first handling
    produced, gives that state again. *)
Theorem change_handlers_idempotent (st st1 : AddressState) :
  (forall x, _onChangeDerive st x = Normal st1 -> _onChangeDerive st1 x = Normal st1)
  /\ (forall x, _onChangeSeed st x = Normal st1 -> _onChangeSeed st1 x = Normal st1)
  /\ (forall x, _onChangePairType st x = Normal st1 ->
                _onChangePairType st1 x = Normal st1).
Proof.
  unfold _onChangeDerive, _onChangeSeed, _onChangePairType.
  repeat split; intros x H; rewrite updateAddress_returns in H;
    injection H as <-; cbn [seed derivePath seedType pairType];
    apply updateAddress_returns.
Qed.

End Properties.

(* ------------------------------------------------------------------ *)
(** ** The properties at concrete inputs, in the reference environment *)

Module Examples.

(** The hypothesis of C1 holds in the reference environment; there a raw
    seed with a soft path on ed25519 gives an error and no address. *)
Lemma address_excludes_deriveError_witness :
  @parseErrorsHaveMessage Reference.imports
  /\ exists st, @updateAddress Reference.imports (lit "abc") (lit "/soft") raw ed25519 = Normal st
                /\ ~ (address st <> None /\ deriveError st <> None).
Proof.
  split.
  - exact ReferenceFacts.parse_errors_have_message.
  - exact (proj1 (@address_excludes_deriveError Reference.imports
                    ReferenceFacts.parse_errors_have_message
                    (lit "abc") (lit "/soft") raw ed25519)).
Defined.

(** C2 at the seed abc with the path /soft. *)
Lemma soft_path_rejected_on_ed25519_witness :
  exists st, @updateAddress Reference.imports (lit "abc") (lit "/soft") raw ed25519 = Normal st
             /\ deriveError st = Some softNotAllowed
             /\ deriveError st <> None
             /\ address st = None.
Proof.
  eapply (@soft_path_rejected_on_ed25519 Reference.imports (lit "abc") (lit "/soft") raw).
  - vm_compute. reflexivity.
  - reflexivity.
Defined.

(** C5 as amended, for a raw seed drawn from the entropy source. *)
Lemma generateSeed_seed_and_address_witness :
  exists a st,
    @addressFromSeed Reference.imports (fst (@newSeed Reference.imports None raw 0%N)) [] sr25519 = Normal a
    /\ @generateSeed Reference.imports None [] raw None 0%N = (Normal st, 1%N)
    /\ address st = Some a /\ deriveError st = None /\ isSeedValid st = true.
Proof.
  assert (Ha : exists a,
    @addressFromSeed Reference.imports (fst (@newSeed Reference.imports None raw 0%N)) []
      (orDefault None) = Normal a).
  { eexists. vm_compute. reflexivity. }
  destruct Ha as [a Ha]. exists a.
  destruct (@generateSeed_seed_and_address Reference.imports None [] raw None 0%N a Ha)
    as [_ Hg].
  eexists. split; [exact Ha|]. split; [exact Hg|]. repeat split.
Defined.

(** C5 as the specification words it fails where the component is mounted
    with a seed: the supplied seed is returned, not random bytes. *)
Lemma generateSeed_keeps_supplied_seed :
  ~ @generateAsSpecified Reference.imports (Some (lit "Alice")) [] raw None 0%N.
Proof.
  intros (st & w' & H & Hs & _).
  vm_compute in H. injection H as <- <-.
  vm_compute in Hs. discriminate Hs.
Qed.

(** C6 as amended, where both signals are present. *)
Lemma isSeedValid_verdict_witness :
  @parseErrorsHaveMessage Reference.imports
  /\ exists st, @updateAddress Reference.imports (lit "abc") (lit "/soft") raw ed25519 = Normal st
       /\ deriveError st <> None
       /\ isSeedValid st = @rawValidate Reference.imports (lit "abc").
Proof.
  split.
  - exact ReferenceFacts.parse_errors_have_message.
  - destruct (@isSeedValid_verdict Reference.imports
                ReferenceFacts.parse_errors_have_message
                (lit "abc") (lit "/soft") raw ed25519) as (st & Hst & Hd & _).
    exists st. split; [exact Hst|].
    assert (H : deriveError st <> None).
    { vm_compute in Hst. injection Hst as <-. discriminate. }
    split; [exact H|exact (Hd H)].
Defined.

(** C6 as the specification words it fails where the seed passes the check,
    there is no derivation error and the address computation throws: the
    seed abc followed by a slash and a space parses, its trim does not. With
    the path / the same seed gets a derivation error and keeps the verdict. *)
Lemma isSeedValid_drops_without_deriveError :
  ~ @isSeedValidIsVerdict Reference.imports (lit "abc/ ") [] raw sr25519.
Proof.
  intros (st & Hst & Hv).
  vm_compute in Hst. injection Hst as <-.
  vm_compute in Hv. discriminate Hv.
Qed.

Example isSeedValid_kept_with_deriveError :
  exists st, @updateAddress Reference.imports (lit "abc/ ") (lit "/") raw sr25519 = Normal st
             /\ deriveError st <> None /\ isSeedValid st = true
             /\ @rawValidate Reference.imports (lit "abc/ ") = true.
Proof.
  eexists. split; [vm_compute; reflexivity|].
  split; [discriminate|]. split; vm_compute; reflexivity.
Qed.

(** C2 as the specification words it fails where the seed ends in a
    password part or in a slash: the soft path is then read as part of the
    password, or as a hard junction, and ed25519 gets an address. *)
Lemma soft_path_after_password_accepted :
  ~ softPathRejected (lit "abc///pw") (lit "/soft") raw.
Proof.
  intros H.
  destruct (H [{| chainCode := lit "soft"; isHard := false |}])
    as (st & Hst & Hd & _); [vm_compute; reflexivity|reflexivity|].
  vm_compute in Hst. injection Hst as <-. now apply Hd.
Qed.

Example soft_path_after_slash_accepted :
  exists a, @updateAddress Reference.imports (lit "abc/") (lit "/soft") raw ed25519
            = Normal {| address := Some a; deriveError := None;
                        derivePath := lit "/soft"; isSeedValid := true;
                        pairType := ed25519; seed := lit "abc/";
                        seedType := raw |}.
Proof. eexists. vm_compute. reflexivity. Qed.

(** C7 for a raw seed with a hard path. *)
Lemma address_implies_valid_witness :
  @parseErrorsHaveMessage Reference.imports
  /\ exists st, @updateAddress Reference.imports (lit "abc") (lit "//hard") raw sr25519 = Normal st
       /\ (address st <> None -> deriveError st = None /\ isSeedValid st = true).
Proof.
  split.
  - exact ReferenceFacts.parse_errors_have_message.
  - exact (proj1 (@address_implies_valid Reference.imports
                    ReferenceFacts.parse_errors_have_message
                    (lit "abc") (lit "//hard") raw sr25519)).
Defined.

(** The example of the specification: 32 zero bytes as hex, the empty path
    and the default algorithm. *)
Example updateAddress_zero_seed :
  exists a, @updateAddress Reference.imports Reference.zeroSeed [] raw DEFAULT_PAIR_TYPE =
            Normal {| address := Some a; deriveError := None; derivePath := [];
                      isSeedValid := true; pairType := sr25519;
                      seed := Reference.zeroSeed; seedType := raw |}
            /\ length Reference.zeroSeed = 66.
Proof. eexists. split; vm_compute; reflexivity. Qed.

(** [rawValidate] on the empty string, on 32 and 33 letters, on 0x with 64
    hex digits and on 66 letters. *)
Example rawValidate_samples :
  @rawValidate Reference.imports [] = false
  /\ @rawValidate Reference.imports (repeat 97%N 32) = true
  /\ @rawValidate Reference.imports (repeat 97%N 33) = false
  /\ @rawValidate Reference.imports (lit "0x" ++ repeat 70%N 64) = true
  /\ @rawValidate Reference.imports (repeat 97%N 66) = false.
Proof. repeat split; vm_compute; reflexivity. Qed.

(** A derivation error and a valid seed in one state. *)
Example deriveError_with_valid_seed :
  exists st, @updateAddress Reference.imports (lit "abc") (lit "/soft") raw ed25519 = Normal st
             /\ deriveError st = Some softNotAllowed
             /\ isSeedValid st = true /\ address st = None.
Proof. eexists. split; [vm_compute; reflexivity|]. repeat split. Qed.

(** [generateSeed] does not guard the address computation: with a path the
    library cannot parse it throws, where [updateAddress] returns the
    error as data. *)
Example generateSeed_throws_on_unparsable_path :
  @generateSeed Reference.imports None (lit "/") bip None 0%N = (Throw Reference.unableToMatch, 1%N)
  /\ exists st, @updateAddress Reference.imports Reference.DEV_PHRASE (lit "/") bip sr25519 = Normal st
                /\ deriveError st = Some (message Reference.unableToMatch)
                /\ address st = None.
Proof.
  split; [vm_compute; reflexivity|].
  eexists. split; [vm_compute; reflexivity|]. repeat split.
Qed.

(** Unlike [updateAddress], [generateSeed] depends on the entropy. *)
Example generateSeed_depends_on_entropy :
  fst (@generateSeed Reference.imports None [] raw None 0%N)
  <> fst (@generateSeed Reference.imports None [] raw None 1%N).
Proof. vm_compute. discriminate. Qed.

(** A raw seed with a trailing space in its password part passes the checks
    as given and gets the address of the trimmed seed; a seed of 32 letters
    and a space is rejected although its trim is valid. *)
Example untrimmed_seed_is_checked :
  let s := lit "abc///pass " in
  let long := repeat 97%N 32 ++ lit " " in
  trim s = lit "abc///pass"
  /\ (exists a, @updateAddress Reference.imports s [] raw sr25519 =
                Normal {| address := Some a; deriveError := None;
                          derivePath := []; isSeedValid := true;
                          pairType := sr25519; seed := s; seedType := raw |}
                /\ @createFromUri Reference.imports (lit "abc///pass") sr25519 = Normal a)
  /\ @rawValidate Reference.imports long = false
  /\ @rawValidate Reference.imports (trim long) = true.
Proof.
  cbv zeta. split; [vm_compute; reflexivity|].
  split; [|split; vm_compute; reflexivity].
  eexists. split; vm_compute; reflexivity.
Qed.

(** A path the library cannot parse, typed before the seed kind is
    switched: the handler throws. *)
Lemma generateSeed_propagates_throw_witness :
  @addressFromSeed Reference.imports
    (fst (@newSeed Reference.imports None dev 0%N)) (lit "/") (orDefault None)
  = Throw Reference.unableToMatch
  /\ @generateSeed Reference.imports None (lit "/") dev None 0%N
     = (Throw Reference.unableToMatch, 0%N).
Proof.
  assert (H : @addressFromSeed Reference.imports
                (fst (@newSeed Reference.imports None dev 0%N)) (lit "/")
                (orDefault None) = Throw Reference.unableToMatch)
    by (vm_compute; reflexivity).
  split; [exact H|].
  exact (@generateSeed_propagates_throw Reference.imports None (lit "/") dev
           None 0%N Reference.unableToMatch H).
Defined.

Example selectSeedType_throws_after_bad_path :
  exists st, @_onChangeDerive Reference.imports
               {| address := None; deriveError := None; derivePath := [];
                  isSeedValid := true; pairType := sr25519;
                  seed := Reference.DEV_PHRASE; seedType := dev |} (lit "/")
             = Normal st
             /\ deriveError st <> None
             /\ @_selectSeedType Reference.imports st raw 0%N
                = (Throw Reference.unableToMatch, 1%N).
Proof.
  eexists. split; [vm_compute; reflexivity|].
  split; [discriminate|vm_compute; reflexivity].
Qed.

End Examples.

(* ------------------------------------------------------------------ *)
(** ** Why the parser's messages matter

    [updateAddress] guards the address computation with [!deriveError]. In
    an environment whose parser throws an error with the empty message the
    guard lets the computation through, and the state holds both an
    address and an empty derivation error. The library's parser has no
    such error. *)

Module EmptyMessageFacts.

Remark address_with_empty_deriveError :
  exists a, @updateAddress EmptyMessage.imports (lit "abc") [] raw sr25519 =
            Normal {| address := Some a; deriveError := Some [];
                      derivePath := []; isSeedValid := true;
                      pairType := sr25519; seed := lit "abc";
                      seedType := raw |}.
Proof. eexists. vm_compute. reflexivity. Qed.

End EmptyMessageFacts.

(* ------------------------------------------------------------------ *)
(** ** More about [trim]: blank strings and both ends *)

Module BlankFacts.

Lemma trimStart_nil_iff (s : jsstring) :
  trimStart s = [] <-> forallb isWhiteSpace s = true.
Proof.
  induction s as [|c s IH]; simpl; [tauto|].
  destruct (isWhiteSpace c); simpl; [exact IH|].
  split; discriminate.
Qed.

Lemma forallb_rev (f : CodeUnit -> bool) (s : jsstring) :
  forallb f (rev s) = forallb f s.
Proof.
  destruct (forallb f s) eqn:E.
  - rewrite forallb_forall in *. intros c Hc. apply E. now apply in_rev.
  - destruct (forallb f (rev s)) eqn:E'; [|reflexivity].
    rewrite <- E. symmetry. rewrite forallb_forall in *.
    intros c Hc. apply E'. now apply in_rev in Hc.
Qed.

Lemma trimEnd_nil_iff (s : jsstring) :
  trimEnd s = [] <-> forallb isWhiteSpace s = true.
Proof.
  unfold trimEnd. rewrite <- (forallb_rev isWhiteSpace s), <- trimStart_nil_iff.
  split; intros H.
  - apply (f_equal (@rev _)) in H. now rewrite rev_involutive in H.
  - now rewrite H.
Qed.

(** [trim] leaves nothing exactly of the strings of white space. *)
Lemma trim_nil_iff (s : jsstring) :
  trim s = [] <-> forallb isWhiteSpace s = true.
Proof.
  unfold trim. rewrite trimEnd_nil_iff. split; intros H.
  - apply trimStart_nil_iff.
    pose proof (TrimFacts.trimStart_clean s) as Hc.
    destruct (trimStart s) as [|c u]; [reflexivity|].
    simpl in H, Hc. destruct (isWhiteSpace c); discriminate.
  - apply trimStart_nil_iff in H. now rewrite H.
Qed.

(** The trim of a string begins and ends with a code unit that is not white
    space, when it has any. *)
Lemma trim_clean_both_ends (s : jsstring) :
  startsClean (trim s) = true /\ startsClean (rev (trim s)) = true.
Proof.
  split.
  - apply TrimFacts.trimEnd_keeps_clean, TrimFacts.trimStart_clean.
  - unfold trim, trimEnd. rewrite rev_involutive.
    apply TrimFacts.trimStart_clean.
Qed.

Lemma truthy_trim (s : jsstring) :
  truthy (Some (trim s)) = negb (forallb isWhiteSpace s).
Proof.
  destruct (forallb isWhiteSpace s) eqn:E.
  - apply trim_nil_iff in E. now rewrite E.
  - destruct (trim s) eqn:T; [|reflexivity].
    apply trim_nil_iff in T. congruence.
Qed.

End BlankFacts.

(* ------------------------------------------------------------------ *)
(** ** What every state of the modal satisfies *)

Section ModalInvariant.

Context {I : Imports} {U : UiImports}.

Lemma updateAddress_current (st : Modal.State) (s p : jsstring)
  (k : SeedType) (t : KeypairType) :
  Modal.previewIsCurrent (Modal.stored st (updateAddress s p k t)).
Proof.
  rewrite updateAddress_returns. intros a. simpl.
  unfold attempts, addressFromSeed.
  destruct (truthy (deriveOutcome s p t)); [discriminate|].
  destruct (seedCheck k s); [|discriminate]. simpl.
  destruct (createFromUri (trim s ++ p) t); [|discriminate].
  intros [= ->]. auto.
Qed.

Lemma generateSeed_current (st : Modal.State) (_seed : option jsstring)
  (p : jsstring) (k : SeedType) (topt : option KeypairType) (w : Entropy) :
  Modal.previewIsCurrent st ->
  Modal.previewIsCurrent (Modal.stored st (fst (generateSeed _seed p k topt w))).
Proof.
  intros Hst. rewrite generateSeed_returns. cbv zeta. cbn [fst].
  unfold addressFromSeed.
  destruct (createFromUri _ (orDefault topt)) as [a|e] eqn:E; [|exact Hst].
  intros a'. simpl. intros [= <-]. auto.
Qed.

Lemma stored_other_fields (st : Modal.State) (c : Completion AddressState) :
  Modal.isNameValid (Modal.stored st c) = Modal.isNameValid st
  /\ Modal.name (Modal.stored st c) = Modal.name st
  /\ Modal.isPassValid (Modal.stored st c) = Modal.isPassValid st
  /\ Modal.password (Modal.stored st c) = Modal.password st
  /\ Modal.isConfirmationOpen (Modal.stored st c) = Modal.isConfirmationOpen st.
Proof. destruct c; repeat split. Qed.

Lemma stored_keeps_rest (st : Modal.State) (c : Completion AddressState) :
  Modal.nameIsTrimmed st /\ Modal.passIsChecked st ->
  Modal.nameIsTrimmed (Modal.stored st c)
  /\ Modal.passIsChecked (Modal.stored st c).
Proof.
  unfold Modal.nameIsTrimmed, Modal.passIsChecked.
  destruct (stored_other_fields st c) as (-> & -> & -> & -> & _). tauto.
Qed.

Lemma handle_keeps_inv (st : Modal.State) (ev : Modal.Event) :
  Modal.invariant st -> Modal.invariant (Modal.handle st ev).
Proof.
  intros (Hp & Hn & Hw).
  destruct ev as [p|s|t|k w|n|pw|]; cbn [Modal.handle].
  - split; [apply updateAddress_current|now apply stored_keeps_rest].
  - split; [apply updateAddress_current|now apply stored_keeps_rest].
  - split; [apply updateAddress_current|now apply stored_keeps_rest].
  - split; [|now apply stored_keeps_rest].
    unfold _selectSeedType.
    destruct (negb (SeedType_eqb k (seedType (Modal.addr st)))).
    + now apply generateSeed_current.
    + cbn [fst Modal.stored]. now destruct st.
  - split; [exact Hp|]. split; [|exact Hw].
    split; cbn [Modal._onChangeName Modal.name Modal.isNameValid].
    + apply TrimFacts.trim_idem.
    + rewrite BlankFacts.truthy_trim. f_equal.
      destruct (forallb isWhiteSpace n) eqn:E.
      * apply BlankFacts.trim_nil_iff in E. now rewrite E.
      * destruct (forallb isWhiteSpace (trim n)) eqn:E'; [|reflexivity].
        apply BlankFacts.trim_nil_iff in E'.
        rewrite TrimFacts.trim_idem in E'.
        apply BlankFacts.trim_nil_iff in E'. congruence.
  - split; [exact Hp|]. split; [exact Hn|].
    intros H. exact H.
  - now split.
Qed.

Lemma mount_inv (propsSeed : option jsstring) (propsType : option KeypairType)
  (w w' : Entropy) (st : Modal.State) :
  Modal.mount propsSeed propsType w = (Normal st, w') -> Modal.invariant st.
Proof.
  unfold Modal.mount. rewrite generateSeed_returns. cbv zeta.
  unfold addressFromSeed.
  destruct (createFromUri _ (orDefault propsType)) as [a|e] eqn:E;
    [|discriminate].
  intros [= <- _]. split; [|split].
  - intros a'. simpl. intros [= <-]. auto.
  - split; vm_compute; reflexivity.
  - discriminate.
Qed.

Lemma run_keeps_inv (evs : list Modal.Event) (st : Modal.State) :
  Modal.invariant st -> Modal.invariant (Modal.run st evs).
Proof.
  revert st. induction evs as [|ev evs IH]; intros st H; [exact H|].
  apply IH, handle_keeps_inv, H.
Qed.

End ModalInvariant.

(* ------------------------------------------------------------------ *)
(** ** Properties of the modal as a whole *)

Section ModalProperties.

Context {I : Imports} {U : UiImports}.

(** X3. The address the modal holds is never stale: in every state reached from
    the mounted one, an address that is present is the one the library
    computes for the trimmed seed, the derivation path and the pair type of
    that same state, and it is the address the row shows. *)
Theorem shown_address_is_current (propsSeed : option jsstring)
  (propsType : option KeypairType) (w w' : Entropy) (st0 : Modal.State)
  (evs : list Modal.Event) (a : jsstring) :
  Modal.mount propsSeed propsType w = (Normal st0, w') ->
  address (Modal.addr (Modal.run st0 evs)) = Some a ->
  createFromUri (trim (seed (Modal.addr (Modal.run st0 evs)))
                 ++ derivePath (Modal.addr (Modal.run st0 evs)))
                (pairType (Modal.addr (Modal.run st0 evs))) = Normal a
  /\ Modal.shownAddress (Modal.run st0 evs) = Some a.
Proof.
  intros Hm Ha.
  destruct (run_keeps_inv evs (mount_inv _ _ _ Hm)) as (Hp & _ & _).
  destruct (Hp a Ha) as (Hc & _ & Hv). split; [exact Hc|].
  unfold Modal.shownAddress. now rewrite Hv.
Qed.

(** X4. In every state reached from the mounted one, [isValid] (which enables
    Save and lets [_onCommit] through) is decided by the address, the name
    and the password alone, and when it holds the address is present, not
    empty and current, the name is trimmed and not blank, and the keyring
    accepts the password. *)
Theorem save_enabled_only_when_valid (propsSeed : option jsstring)
  (propsType : option KeypairType) (w w' : Entropy) (st0 : Modal.State)
  (evs : list Modal.Event) :
  Modal.mount propsSeed propsType w = (Normal st0, w') ->
  let st := Modal.run st0 evs in
  Modal.isValid st
  = truthy (address (Modal.addr st)) && Modal.isNameValid st
    && Modal.isPassValid st
  /\ (Modal.isValid st = true ->
      (exists a, address (Modal.addr st) = Some a /\ a <> []
                 /\ createFromUri (trim (seed (Modal.addr st))
                                   ++ derivePath (Modal.addr st))
                                  (pairType (Modal.addr st)) = Normal a)
      /\ trim (Modal.name st) = Modal.name st
      /\ forallb isWhiteSpace (Modal.name st) = false
      /\ keyring_isPassValid (Modal.password st) = true).
Proof.
  intros Hm st.
  destruct (run_keeps_inv evs (mount_inv _ _ _ Hm)) as (Hp & (Ht & Hn) & Hw).
  fold st in Hp, Ht, Hn, Hw. unfold Modal.isValid. split.
  - destruct (address (Modal.addr st)) as [[|c a]|] eqn:Ha; try reflexivity.
    destruct (Hp _ Ha) as (_ & -> & ->). simpl.
    now rewrite andb_true_r.
  - intros H.
    apply andb_prop in H as [H _]. apply andb_prop in H as [H Hpv].
    apply andb_prop in H as [H Hnv]. apply andb_prop in H as [H _].
    destruct (address (Modal.addr st)) as [[|c a]|] eqn:Ha; try discriminate.
    destruct (Hp _ Ha) as (Hc & _ & _).
    split; [exists (c :: a); repeat split; [discriminate|exact Hc]|].
    split; [exact Ht|]. split; [|now apply Hw].
    rewrite Hn in Hnv. now apply negb_true_iff in Hnv.
Qed.

(** X5. [_onChangeName] stores the trimmed name, which has no white space at
    either end, and the name is valid exactly when the typed text is not
    blank; typing the stored name again changes nothing. *)
Theorem name_valid_iff_not_blank (st : Modal.State) (_name : jsstring) :
  let st' := Modal._onChangeName st _name in
  Modal.isNameValid st' = negb (forallb isWhiteSpace _name)
  /\ Modal.name st' = trim _name
  /\ startsClean (Modal.name st') = true
  /\ startsClean (rev (Modal.name st')) = true
  /\ Modal._onChangeName st' (Modal.name st') = st'.
Proof.
  cbv zeta. cbn [Modal._onChangeName Modal.name Modal.isNameValid].
  split; [apply BlankFacts.truthy_trim|]. split; [reflexivity|].
  split; [apply BlankFacts.trim_clean_both_ends|].
  split; [apply BlankFacts.trim_clean_both_ends|].
  unfold Modal._onChangeName. cbn [Modal.addr Modal.isConfirmationOpen
    Modal.isPassValid Modal.password Modal.name].
  now rewrite TrimFacts.trim_idem.
Qed.

(** What [_onCommit] does in a valid state, call by call. *)
Lemma onCommit_valid (st : Modal.State) :
  Modal.isValid st = true ->
  Modal._onCommit st =
  (Modal._toggleConfirmation st,
   let suri := seed (Modal.addr st) ++ derivePath (Modal.addr st) in
   let ev0 := Modal.CallAddUri suri (Modal.password st) (Modal.name st)
                               (pairType (Modal.addr st)) in
   match keyring_addUri suri (Modal.password st) (Modal.name st)
                        (pairType (Modal.addr st)) with
   | Throw e =>
       [ev0; Modal.CallOnStatusChange (Modal.failedStatus None e);
        Modal.CallOnClose]
   | Normal (json, a) =>
       let ev1 := Modal.CallSaveAs (JSON_stringify json) (a ++ lit ".json") in
       match FileSaver_saveAs (JSON_stringify json) (a ++ lit ".json") with
       | Throw e =>
           [ev0; ev1; Modal.CallOnStatusChange (Modal.failedStatus None e);
            Modal.CallOnClose]
       | Normal _ =>
           let ev2 := Modal.CallSetLastValue (lit "account") a in
           match InputAddress_setLastValue (lit "account") a with
           | Throw e =>
               [ev0; ev1; ev2;
                Modal.CallOnStatusChange (Modal.failedStatus (Some a) e);
                Modal.CallOnClose]
           | Normal _ =>
               [ev0; ev1; ev2;
                Modal.CallOnStatusChange (Modal.createdStatus a);
                Modal.CallOnClose]
           end
       end
   end).
Proof.
  intros Hv. unfold Modal._onCommit. rewrite Hv. cbn [negb]. f_equal.
  unfold Modal.tryE, Modal.commitBody, Modal.commitCatch, Modal.bindE,
    Modal.call, Modal.assign.
  cbn [Modal.status Modal.effects app].
  destruct (keyring_addUri _ _ _ _) as [[json a]|e]; [|reflexivity].
  cbn [fst snd].
  destruct (FileSaver_saveAs _ _) as [u|e]; [|reflexivity].
  destruct (InputAddress_setLastValue _ _) as [u'|e]; reflexivity.
Qed.

(** X6. [_onCommit] does nothing in a state that is not valid. In a valid one
    it calls [addUri] first, with the seed as typed followed by the
    derivation path, and whatever throws in between it reports exactly one
    status and then closes; the status is a success exactly when [addUri],
    [saveAs] and [setLastValue] all returned, and else it is a failure that
    carries the message of the error the first failing call threw. *)
Theorem commit_reports_once (st : Modal.State) :
  (Modal.isValid st = false -> Modal._onCommit st = (st, []))
  /\ (Modal.isValid st = true ->
      exists calls s,
        Modal._onCommit st =
        (Modal._toggleConfirmation st,
         Modal.CallAddUri (seed (Modal.addr st) ++ derivePath (Modal.addr st))
                          (Modal.password st) (Modal.name st)
                          (pairType (Modal.addr st))
         :: calls ++ [Modal.CallOnStatusChange s; Modal.CallOnClose])
        /\ (forall c, In c calls ->
              exists x y, c = Modal.CallSaveAs x y
                          \/ c = Modal.CallSetLastValue x y)
        /\ ((exists a, s = Modal.createdStatus a /\ Modal.commitSucceeds st a)
            \/ (exists acc e,
                  s = Modal.failedStatus acc e
                  /\ Modal.commitFails st acc e
                  /\ ActionStatus.status s = Some ActionStatus.failure
                  /\ ActionStatus.message s = Some (message e)
                  /\ forall a, ~ Modal.commitSucceeds st a))).
Proof.
  split.
  - intros H. unfold Modal._onCommit. now rewrite H.
  - intros H. rewrite (onCommit_valid st H). cbv zeta.
    unfold Modal.commitSucceeds, Modal.commitFails. cbv zeta.
    destruct (keyring_addUri _ _ _ _) as [[json a]|e] eqn:E1.
    2:{ exists [], (Modal.failedStatus None e). split; [reflexivity|].
        split; [intros c []|]. right. exists None, e.
        split; [reflexivity|]. split; [left; now split|].
        split; [reflexivity|]. split; [reflexivity|].
        intros a (json & Hj & _). congruence. }
    destruct (FileSaver_saveAs _ _) as [u|e] eqn:E2.
    2:{ eexists [_], (Modal.failedStatus None e). split; [reflexivity|].
        split; [intros c [<-|[]]; eauto|]. right. exists None, e.
        split; [reflexivity|].
        split; [right; exists json, a; split; [reflexivity|left; now split]|].
        split; [reflexivity|]. split; [reflexivity|].
        intros a' (json' & Hj & Hs & _).
        injection Hj as <- <-. congruence. }
    destruct u.
    destruct (InputAddress_setLastValue _ _) as [u'|e] eqn:E3.
    2:{ eexists [_; _], (Modal.failedStatus (Some a) e).
        split; [reflexivity|].
        split; [intros c [<-|[<-|[]]]; eauto|]. right. exists (Some a), e.
        split; [reflexivity|].
        split; [right; exists json, a; split; [reflexivity|right; now split]|].
        split; [reflexivity|]. split; [reflexivity|].
        intros a' (json' & Hj & _ & Hl).
        injection Hj as <- <-. congruence. }
    eexists [_; _], (Modal.createdStatus a). split; [reflexivity|].
    split; [intros c [<-|[<-|[]]]; eauto|]. left. exists a.
    split; [reflexivity|]. exists json. destruct u'. auto.
Qed.

(** X7. The preview trims the seed and the commit does not. When the seed of a
    reached state has no white space at either end and the library's
    [addUri] agrees with its [createFromUri], a commit that reports success
    reports the very address the modal showed. *)
Theorem successful_commit_reports_shown_address (propsSeed : option jsstring)
  (propsType : option KeypairType) (w w' : Entropy) (st0 : Modal.State)
  (evs : list Modal.Event) (s : ActionStatus.t) :
  Modal.addUriAgrees ->
  Modal.mount propsSeed propsType w = (Normal st0, w') ->
  trim (seed (Modal.addr (Modal.run st0 evs)))
  = seed (Modal.addr (Modal.run st0 evs)) ->
  In (Modal.CallOnStatusChange s) (snd (Modal._onCommit (Modal.run st0 evs))) ->
  ActionStatus.status s = Some ActionStatus.success ->
  ActionStatus.account s = address (Modal.addr (Modal.run st0 evs))
  /\ ActionStatus.account s = Modal.shownAddress (Modal.run st0 evs)
  /\ ActionStatus.account s <> None.
Proof.
  intros Hag Hm Htrim Hin Hs.
  set (st := Modal.run st0 evs) in *.
  destruct (Modal.isValid st) eqn:Hv.
  2:{ unfold Modal._onCommit in Hin. rewrite Hv in Hin. destruct Hin. }
  destruct (run_keeps_inv evs (mount_inv _ _ _ Hm)) as (Hp & _ & _).
  fold st in Hp.
  assert (Ha : exists a0, address (Modal.addr st) = Some a0).
  { pose proof Hv as H. unfold Modal.isValid in H.
    repeat (apply andb_prop in H as [H _]).
    destruct (address (Modal.addr st)) as [a0|]; [now exists a0|discriminate]. }
  destruct Ha as [a0 Ha0]. destruct (Hp a0 Ha0) as (Hc0 & _ & Hsv).
  assert (Hshow : Modal.shownAddress st = Some a0).
  { unfold Modal.shownAddress. now rewrite Hsv. }
  rewrite (onCommit_valid st Hv) in Hin. cbv zeta in Hin. cbn [snd] in Hin.
  assert (Hcase : forall l acc e,
            In (Modal.CallOnStatusChange s)
               (l ++ [Modal.CallOnStatusChange (Modal.failedStatus acc e);
                      Modal.CallOnClose]) ->
            (forall c, In c l -> forall s', c <> Modal.CallOnStatusChange s') ->
            False).
  { intros l acc e Hi Hl. apply in_app_or in Hi as [Hi|[Hi|[Hi|[]]]].
    - exact (Hl _ Hi s eq_refl).
    - injection Hi as <-. discriminate Hs.
    - discriminate Hi. }
  destruct (keyring_addUri _ _ _ _) as [[json a]|e] eqn:E1.
  2:{ exfalso. apply (Hcase [_] None e Hin).
      intros c [<-|[]] s'. discriminate. }
  destruct (FileSaver_saveAs _ _) as [u|e] eqn:E2.
  2:{ exfalso. apply (Hcase [_; _] None e Hin).
      intros c [<-|[<-|[]]] s'; discriminate. }
  destruct (InputAddress_setLastValue _ _) as [u'|e] eqn:E3.
  2:{ exfalso. apply (Hcase [_; _; _] (Some a) e Hin).
      intros c [<-|[<-|[<-|[]]]] s'; discriminate. }
  destruct Hin as [Hi|[Hi|[Hi|[Hi|[Hi|[]]]]]]; try discriminate Hi.
  injection Hi as <-. cbn [ActionStatus.account Modal.createdStatus].
  apply Hag in E1. rewrite <- Htrim, Hc0 in E1. injection E1 as <-.
  rewrite Ha0, Hshow. repeat split. discriminate.
Qed.

(** X9. After an edit of the derivation path, the seed or the pair type, Save
    is enabled only when the seed of the new state passes the seed check
    and [deriveValidate] returns no error for it. (A state that
    [generateSeed] made need not pass either.) *)
Theorem save_after_edit_means_checked (st : Modal.State) (ev : Modal.Event) :
  Modal.isEdit ev = true ->
  Modal.isValid (Modal.handle st ev) = true ->
  let a := Modal.addr (Modal.handle st ev) in
  seedCheck (seedType a) (seed a) = true
  /\ deriveValidate (seed a) (derivePath a) (pairType a) = Normal (deriveError a)
  /\ truthy (deriveError a) = false.
Proof.
  intros He Hv. cbv zeta.
  assert (G : forall s p k t,
    Modal.isValid (Modal.stored st (updateAddress s p k t)) = true ->
    let a := Modal.addr (Modal.stored st (updateAddress s p k t)) in
    seedCheck (seedType a) (seed a) = true
    /\ deriveValidate (seed a) (derivePath a) (pairType a)
       = Normal (deriveError a)
    /\ truthy (deriveError a) = false).
  { intros s p k t. rewrite updateAddress_returns. cbv zeta.
    unfold Modal.isValid.
    cbn [Modal.stored Modal.setAddress Modal.addr address deriveError
         isSeedValid seed seedType derivePath pairType].
    intros H. repeat (apply andb_prop in H as [H _]).
    unfold attempts in H.
    destruct (truthy (deriveOutcome s p t)) eqn:Ed; [discriminate H|].
    destruct (seedCheck k s); [|discriminate H].
    split; [reflexivity|]. split; [apply deriveValidate_returns|reflexivity]. }
  destruct ev; try discriminate He; cbn [Modal.handle] in *;
    unfold _onChangeDerive, _onChangeSeed, _onChangePairType in *;
    now apply G.
Qed.

End ModalProperties.

(* ------------------------------------------------------------------ *)
(** ** Generating and then validating *)

Section GenerateThenUpdate.

Context {I : Imports}.

(** X8. [generateSeed] sets [isSeedValid] and clears [deriveError] without
    checking. The state it returns is confirmed by [updateAddress], run on
    the fields of that state, exactly when the seed passes the seed check
    and [deriveValidate] finds no error; when the seed fails the check or
    the error is a non-empty message, [updateAddress] returns a state
    without address. *)
Theorem generated_state_revalidates (_seed : option jsstring) (p : jsstring)
  (k : SeedType) (topt : option KeypairType) (w w' : Entropy)
  (st : AddressState) :
  generateSeed _seed p k topt w = (Normal st, w') ->
  (updateAddress (seed st) (derivePath st) (seedType st) (pairType st)
   = Normal st
   <-> deriveOutcome (seed st) p (orDefault topt) = None
       /\ seedCheck k (seed st) = true)
  /\ (truthy (deriveOutcome (seed st) p (orDefault topt)) = true
      \/ seedCheck k (seed st) = false ->
      exists st', updateAddress (seed st) (derivePath st) (seedType st)
                                (pairType st) = Normal st'
                  /\ address st' = None).
Proof.
  rewrite generateSeed_returns. cbv zeta.
  destruct (addressFromSeed (fst (newSeed _seed k w)) p (orDefault topt))
    as [a|e] eqn:Ea; [|discriminate].
  intros [= <- _]. cbn [seed derivePath seedType pairType].
  set (s := fst (newSeed _seed k w)) in *. set (t := orDefault topt) in *.
  rewrite updateAddress_returns. unfold attempts. split.
  - destruct (deriveOutcome s p t) as [d|] eqn:Ed.
    + split; [intros [= H]; discriminate H|intros [H _]; discriminate H].
    + simpl. destruct (seedCheck k s) eqn:Ek.
      * rewrite Ea. simpl. tauto.
      * split; [intros [= H]|intros [_ H]; discriminate H].
  - intros H. eexists. split; [reflexivity|]. cbn [address].
    destruct H as [-> | ->]; [reflexivity|].
    now rewrite andb_false_r.
Qed.

End GenerateThenUpdate.

(* ------------------------------------------------------------------ *)
(** ** Properties of the code card *)

Module CodeFacts.

Section WithStore.

Variable forgetCode : jsstring -> Completion unit.

(** X10. [onForget] on a code with a hash calls [forgetCode] once with that
    hash, logs the error to the console exactly when the call throws, and
    toggles the Forget modal either way: from the open modal it leaves
    [renderModals] without the Forget modal and with the Remove-ABI modal
    as it was. On a code without a hash it calls nothing and the modal
    stays open. *)
Theorem onForget_closes_modal (code : Code.CodeStored) (st : Code.State) :
  Code.isForgetOpen st = true ->
  (Code.codeHash code <> [] ->
     exists logged,
       Code.onForget forgetCode code st
       = (Code.toggleForget st,
          Code.CallForgetCode (Code.codeHash code) :: logged)
       /\ (forall e, forgetCode (Code.codeHash code) = Throw e
                     <-> logged = [Code.CallConsoleError e])
       /\ (returns (forgetCode (Code.codeHash code)) = true <-> logged = [])
       /\ Code.renderModals (Some code) (fst (Code.onForget forgetCode code st))
          = Some (if Code.isRemoveABIOpen st then [Code.RemoveABI] else []))
  /\ (Code.codeHash code = [] ->
        Code.onForget forgetCode code st = (st, [])
        /\ exists rest, Code.renderModals (Some code) st
                        = Some (Code.Forget :: rest)).
Proof.
  intros Hopen. split.
  - intros Hh. unfold Code.onForget.
    destruct (Code.codeHash code) as [|c h] eqn:E; [congruence|].
    cbn [truthy negb]. unfold Code.renderModals, Code.toggleForget.
    cbn [fst Code.isForgetOpen Code.isRemoveABIOpen]. rewrite Hopen.
    destruct (forgetCode (c :: h)) as [u|e] eqn:Ef.
    + exists []. repeat split; try discriminate; try reflexivity.
    + exists [Code.CallConsoleError e]. repeat split; try discriminate.
      * now intros [= <-].
      * now intros [= <-].
  - intros Hh. unfold Code.onForget, Code.renderModals.
    rewrite Hh, Hopen. split; [reflexivity|]. now eexists.
Qed.

(** X11. The two flags of the card count events: after any sequence of events
    from the initial state, the Forget modal is open exactly when the
    number of its toggles, and of [onForget] runs when the code has a hash,
    is odd, and the Remove-ABI modal is open exactly when the number of its
    toggles is odd. *)
Theorem flags_count_events (code : Code.CodeStored) (evs : list Code.Event) :
  let st := fold_left (Code.handle forgetCode code) evs Code.initialState in
  let forgets :=
    count_occ Code.Event_eq_dec evs Code.ToggleForget
    + (if truthy (Some (Code.codeHash code))
       then count_occ Code.Event_eq_dec evs Code.OnForget else 0) in
  Code.isForgetOpen st = Nat.odd forgets
  /\ Code.isRemoveABIOpen st
     = Nat.odd (count_occ Code.Event_eq_dec evs Code.ToggleRemoveABI).
Proof.
  cbv zeta.
  assert (G : forall evs st,
    let st' := fold_left (Code.handle forgetCode code) evs st in
    Code.isForgetOpen st'
    = xorb (Code.isForgetOpen st)
        (Nat.odd (count_occ Code.Event_eq_dec evs Code.ToggleForget
                  + (if truthy (Some (Code.codeHash code))
                     then count_occ Code.Event_eq_dec evs Code.OnForget
                     else 0)))
    /\ Code.isRemoveABIOpen st'
       = xorb (Code.isRemoveABIOpen st)
           (Nat.odd (count_occ Code.Event_eq_dec evs Code.ToggleRemoveABI))).
  { clear evs. induction evs as [|ev evs IH]; intros st; cbv zeta.
    - simpl. destruct (Code.codeHash code); simpl; now rewrite !xorb_false_r.
    - cbn [fold_left]. destruct (IH (Code.handle forgetCode code st ev))
        as [-> ->]. clear IH.
      destruct ev; cbn [Code.handle count_occ];
        repeat match goal with
               | |- context [Code.Event_eq_dec ?a ?b] =>
                   destruct (Code.Event_eq_dec a b); try congruence
               end.
      + cbn [Code.toggleForget Code.isForgetOpen Code.isRemoveABIOpen].
        split; [|reflexivity].
        rewrite Nat.add_succ_l, Nat.odd_succ, <- Nat.negb_odd.
        now destruct (Code.isForgetOpen st), (Nat.odd _).
      + cbn [Code.toggleRemoveABI Code.isForgetOpen Code.isRemoveABIOpen].
        split; [reflexivity|].
        rewrite Nat.odd_succ, <- Nat.negb_odd.
        now destruct (Code.isRemoveABIOpen st), (Nat.odd _).
      + unfold Code.onForget.
        destruct (truthy (Some (Code.codeHash code))); cbn [negb fst].
        * cbn [Code.toggleForget Code.isForgetOpen Code.isRemoveABIOpen].
          split; [|reflexivity].
          rewrite Nat.add_succ_r, Nat.odd_succ, <- Nat.negb_odd.
          now destruct (Code.isForgetOpen st), (Nat.odd _).
        * split; reflexivity. }
  destruct (G evs Code.initialState) as [-> ->]. simpl.
  now destruct (Nat.odd _), (Nat.odd _).
Qed.

End WithStore.

End CodeFacts.

(* ------------------------------------------------------------------ *)
(** ** The whole modal and the code card at concrete inputs *)

Module UiExamples.

Lemma addUri_agrees : @Modal.addUriAgrees Reference.imports ReferenceUi.imports.
Proof.
  intros suri pw nm t json a. cbn. unfold ReferenceUi.addUri, bind.
  destruct (Reference.createFromUri suri t); [|discriminate].
  now intros [= _ <-].
Qed.

Lemma shown_address_is_current_witness :
  exists st0 w' a,
    @Modal.mount Reference.imports (Some (lit "Alice")) None 0%N
    = (Normal st0, w')
    /\ address (Modal.addr (@Modal.run Reference.imports ReferenceUi.imports
                              st0 ReferenceUi.typed)) = Some a
    /\ Modal.shownAddress (@Modal.run Reference.imports ReferenceUi.imports
                             st0 ReferenceUi.typed) = Some a.
Proof.
  destruct (@Modal.mount Reference.imports (Some (lit "Alice")) None 0%N)
    as [[st0|e] w'] eqn:Hm.
  2:{ vm_compute in Hm. discriminate Hm. }
  exists st0, w'.
  assert (Ha : exists a,
    address (Modal.addr (@Modal.run Reference.imports ReferenceUi.imports
                           st0 ReferenceUi.typed)) = Some a).
  { pose proof Hm as H. vm_compute in H. injection H as H1 H2. subst st0.
    eexists. vm_compute. reflexivity. }
  destruct Ha as [a Ha]. exists a.
  split; [reflexivity|]. split; [exact Ha|].
  exact (proj2 (@shown_address_is_current Reference.imports ReferenceUi.imports
                  _ _ _ _ _ ReferenceUi.typed a Hm Ha)).
Defined.

Lemma save_enabled_only_when_valid_witness :
  exists st0 w',
    @Modal.mount Reference.imports (Some (lit "Alice")) None 0%N
    = (Normal st0, w')
    /\ Modal.isValid (@Modal.run Reference.imports ReferenceUi.imports
                        st0 ReferenceUi.typed) = true
    /\ Modal.name (@Modal.run Reference.imports ReferenceUi.imports st0 ReferenceUi.typed)
       = lit "my account"
    /\ @keyring_isPassValid ReferenceUi.imports
         (Modal.password (@Modal.run Reference.imports ReferenceUi.imports
                            st0 ReferenceUi.typed)) = true.
Proof.
  destruct (@Modal.mount Reference.imports (Some (lit "Alice")) None 0%N)
    as [[st0|e] w'] eqn:Hm.
  2:{ vm_compute in Hm. discriminate Hm. }
  exists st0, w'.
  assert (Hv : Modal.isValid (@Modal.run Reference.imports ReferenceUi.imports
                                st0 ReferenceUi.typed) = true
               /\ Modal.name (@Modal.run Reference.imports ReferenceUi.imports
                                st0 ReferenceUi.typed) = lit "my account").
  { pose proof Hm as H. vm_compute in H. injection H as H1 H2. subst st0.
    split; vm_compute; reflexivity. }
  destruct Hv as [Hv Hn].
  split; [reflexivity|]. split; [exact Hv|]. split; [exact Hn|].
  destruct (@save_enabled_only_when_valid Reference.imports ReferenceUi.imports
              _ _ _ _ _ ReferenceUi.typed Hm) as [_ H].
  exact (proj2 (proj2 (proj2 (H Hv)))).
Defined.

Lemma successful_commit_reports_shown_address_witness :
  exists st0 w' s,
    @Modal.mount Reference.imports (Some (lit "Alice")) None 0%N
    = (Normal st0, w')
    /\ In (Modal.CallOnStatusChange s)
          (snd (@Modal._onCommit ReferenceUi.imports
                  (@Modal.run Reference.imports ReferenceUi.imports st0 ReferenceUi.typed)))
    /\ ActionStatus.status s = Some ActionStatus.success
    /\ ActionStatus.account s
       = address (Modal.addr (@Modal.run Reference.imports ReferenceUi.imports
                                st0 ReferenceUi.typed)).
Proof.
  destruct (@Modal.mount Reference.imports (Some (lit "Alice")) None 0%N)
    as [[st0|e] w'] eqn:Hm.
  2:{ vm_compute in Hm. discriminate Hm. }
  exists st0, w'.
  assert (H : exists s,
    trim (seed (Modal.addr (@Modal.run Reference.imports ReferenceUi.imports
                              st0 ReferenceUi.typed)))
    = seed (Modal.addr (@Modal.run Reference.imports ReferenceUi.imports
                          st0 ReferenceUi.typed))
    /\ In (Modal.CallOnStatusChange s)
          (snd (@Modal._onCommit ReferenceUi.imports
                  (@Modal.run Reference.imports ReferenceUi.imports st0 ReferenceUi.typed)))
    /\ ActionStatus.status s = Some ActionStatus.success).
  { pose proof Hm as H. vm_compute in H. injection H as H1 H2. subst st0.
    eexists. split; [vm_compute; reflexivity|]. split.
    - vm_compute. do 3 right. left. reflexivity.
    - reflexivity. }
  destruct H as (s & Ht & Hin & Hs). exists s.
  split; [reflexivity|]. split; [exact Hin|]. split; [exact Hs|].
  exact (proj1 (@successful_commit_reports_shown_address Reference.imports
                  ReferenceUi.imports _ _ _ _ _ ReferenceUi.typed s addUri_agrees Hm Ht
                  Hin Hs)).
Defined.

Lemma generated_state_revalidates_witness :
  exists st w',
    @generateSeed Reference.imports None [] raw None 0%N = (Normal st, w')
    /\ @updateAddress Reference.imports (seed st) (derivePath st)
         (seedType st) (pairType st) = Normal st.
Proof.
  destruct (@generateSeed Reference.imports None [] raw None 0%N)
    as [[st|e] w'] eqn:Hg.
  2:{ vm_compute in Hg. discriminate Hg. }
  exists st, w'. split; [reflexivity|].
  apply (proj1 (@generated_state_revalidates Reference.imports
                  _ _ _ _ _ _ _ Hg)).
  pose proof Hg as H. vm_compute in H. injection H as H1 H2. subst st.
  split; vm_compute; reflexivity.
Defined.

Lemma save_after_edit_means_checked_witness :
  exists st0 w',
    @Modal.mount Reference.imports (Some (lit "Alice")) None 0%N
    = (Normal st0, w')
    /\ let st := @Modal.handle Reference.imports ReferenceUi.imports
                   (@Modal.handle Reference.imports ReferenceUi.imports st0
                      (Modal.ChangePass (lit "secret")))
                   (Modal.ChangeSeed (lit "Bob")) in
       Modal.isValid st = true
       /\ @seedCheck Reference.imports (seedType (Modal.addr st))
            (seed (Modal.addr st)) = true.
Proof.
  destruct (@Modal.mount Reference.imports (Some (lit "Alice")) None 0%N)
    as [[st0|e] w'] eqn:Hm.
  2:{ vm_compute in Hm. discriminate Hm. }
  exists st0, w'. split; [reflexivity|]. cbv zeta.
  assert (Hv : Modal.isValid
                 (@Modal.handle Reference.imports ReferenceUi.imports
                    (@Modal.handle Reference.imports ReferenceUi.imports st0
                       (Modal.ChangePass (lit "secret")))
                    (Modal.ChangeSeed (lit "Bob"))) = true).
  { vm_compute in Hm. injection Hm as H1 H2. subst st0.
    vm_compute. reflexivity. }
  split; [exact Hv|].
  exact (proj1 (@save_after_edit_means_checked Reference.imports
                  ReferenceUi.imports _ (Modal.ChangeSeed (lit "Bob"))
                  eq_refl Hv)).
Defined.

(** A store that throws, a code with a hash, the Forget modal open. *)
Lemma onForget_closes_modal_witness :
  let forgetCode := fun _ : jsstring => @Throw unit {| message := lit "gone" |} in
  let code := {| Code.codeHash := lit "0x1234" |} in
  let st := Code.toggleForget Code.initialState in
  Code.isForgetOpen st = true
  /\ Code.renderModals (Some code) (fst (Code.onForget forgetCode code st))
     = Some []
  /\ snd (Code.onForget forgetCode code st)
     = [Code.CallForgetCode (lit "0x1234");
        Code.CallConsoleError {| message := lit "gone" |}].
Proof.
  cbv zeta. split; [reflexivity|].
  destruct (@CodeFacts.onForget_closes_modal
              (fun _ => Throw {| message := lit "gone" |})
              {| Code.codeHash := lit "0x1234" |}
              (Code.toggleForget Code.initialState) eq_refl) as [H _].
  destruct H as (logged & Heq & _ & _ & Hr); [vm_compute; discriminate|].
  split; [exact Hr|]. vm_compute. reflexivity.
Defined.

(** Mounted with a mnemonic and a password part that ends in a space, the
    modal shows the address of the trimmed seed and commits the seed as
    ReferenceUi.typed: the account reported is not the address shown. *)
Example commit_of_untrimmed_seed_differs :
  let s := lit "legal winner thank year wave sausage worth useful legal winner thank yellow///pw " in
  exists st0 w' st account shown,
    @Modal.mount Reference.imports (Some s) None 0%N = (Normal st0, w')
    /\ st = @Modal.run Reference.imports ReferenceUi.imports st0
              [Modal.ChangePass (lit "secret")]
    /\ Modal.isValid st = true
    /\ Modal.shownAddress st = Some shown
    /\ In (Modal.CallOnStatusChange (@Modal.createdStatus ReferenceUi.imports account))
          (snd (@Modal._onCommit ReferenceUi.imports st))
    /\ account <> shown
    /\ @seedCheck Reference.imports raw s = false.
Proof.
  cbv zeta. do 5 eexists.
  split; [vm_compute; reflexivity|]. split; [reflexivity|].
  split; [vm_compute; reflexivity|]. split; [vm_compute; reflexivity|].
  split; [vm_compute; do 3 right; left; reflexivity|].
  split; [vm_compute; discriminate|vm_compute; reflexivity].
Qed.

End UiExamples.

(* ------------------------------------------------------------------ *)
(** ** [updateAddress] and the world outside *)

Section Worlds.

Import Effectful.

Context {W : WorldImports}.

Lemma pair_with_world {A} (f : World -> A * World) (w : World) :
  snd (f w) = w -> f w = (fst (f w), w).
Proof. intros H. rewrite <- H at 3. apply surjective_pairing. Qed.

(** Over imports that leave the world alone, the program with the world is
    the program without it, read in the world of the call, and it leaves
    the world alone as well. *)
Lemma updateAddressW_reads (s p : jsstring) (k : SeedType) (t : KeypairType)
  (w : World) :
  readOnly ->
  updateAddressW s p k t w = (@updateAddress (importsAt w) s p k t, w).
Proof.
  intros (Hk & Hh & Hm & Hc).
  assert (Hv : (match k with
                | raw => rawValidateW s
                | _ => test (mnemonicValidateW s)
                end) w = (Normal (@seedCheck (importsAt w) k s), w)).
  { unfold seedCheck, rawValidateW, rawValidate, isHexSeedW, isHexSeed, test,
      bindM, retM.
    cbn [isHex mnemonicValidate importsAt].
    destruct k.
    - now rewrite (pair_with_world _ (Hm s w)).
    - destruct ((0 <? length s) && (length s <=? 32)); [reflexivity|].
      now rewrite (pair_with_world _ (Hh s w)).
    - now rewrite (pair_with_world _ (Hm s w)). }
  assert (Ha : forall v,
    tryM (bindM (addressFromSeedW s p t) (fun a => retM (Some a, v)))
         (fun _ => retM (None, false)) w
    = (try_catch (a <- @addressFromSeed (importsAt w) s p t ;;
                  Normal (Some a, v))
                 (fun _ => Normal (None, false)), w)).
  { intros v. unfold tryM, bindM, retM, addressFromSeedW, addressFromSeed,
      try_catch, bind.
    cbn [createFromUri importsAt].
    rewrite (pair_with_world _ (Hc (trim s ++ p) t w)).
    now destruct (fst (createFromUriW (trim s ++ p) t w)). }
  assert (Hd : deriveValidateW s p t w
               = (@deriveValidate (importsAt w) s p t, w)).
  { unfold deriveValidateW, deriveValidate, tryM, bindM, retM, try_catch, bind.
    cbn [keyExtractSuri importsAt].
    rewrite (pair_with_world _ (Hk (s ++ p) w)).
    destruct (fst (keyExtractSuriW (s ++ p) w)) as [r|e]; cbn [fst];
      [|reflexivity].
    now destruct (KeypairType_eqb t ed25519 && existsb isSoft (path r)). }
  unfold updateAddressW, updateAddress.
  unfold bindM at 1. rewrite Hd.
  rewrite (@deriveValidate_returns (importsAt w)).
  cbn [bind]. unfold bindM at 1. rewrite Hv.
  set (d := @deriveOutcome (importsAt w) s p t).
  set (v := @seedCheck (importsAt w) k s).
  unfold bindM at 1.
  destruct (negb (truthy d) && v).
  - rewrite Ha. unfold try_catch, bind, retM.
    now destruct (@addressFromSeed (importsAt w) s p t).
  - reflexivity.
Qed.

(** [updateAddress] reads its imports only at its arguments: two
    environments whose four functions agree give the same state. *)
Lemma updateAddress_agree (I1 I2 : Imports) (s p : jsstring) (k : SeedType)
  (t : KeypairType) :
  (forall x, @keyExtractSuri I1 x = @keyExtractSuri I2 x) ->
  (forall x, @isHex I1 x = @isHex I2 x) ->
  (forall x, @mnemonicValidate I1 x = @mnemonicValidate I2 x) ->
  (forall x y, @createFromUri I1 x y = @createFromUri I2 x y) ->
  @updateAddress I1 s p k t = @updateAddress I2 s p k t.
Proof.
  intros Hk Hh Hm Hc.
  rewrite !updateAddress_returns.
  unfold attempts, deriveOutcome, addressFromSeed, seedCheck, rawValidate,
    isHexSeed.
  now rewrite Hk, Hh, Hm, Hc.
Qed.

(** C9. Two calls of [updateAddress] with the same seed, derivation path,
    seed kind and algorithm return the same state. The calls are made one
    after the other in a world that the imported functions may read; given
    that the four functions [updateAddress] calls do not change it, the
    first call returns a state and leaves the world as it was, the second
    call returns that same state, and the state echoes the four arguments.
    When the four functions moreover return the same in every world, every
    call returns that state, whatever happened in between. *)
Theorem updateAddress_same_inputs_same_state :
  readOnly ->
  forall (s p : jsstring) (k : SeedType) (t : KeypairType) (w : World),
  exists st,
    updateAddressW s p k t w = (Normal st, w)
    /\ updateAddressW s p k t (snd (updateAddressW s p k t w)) = (Normal st, w)
    /\ seed st = s /\ derivePath st = p /\ seedType st = k /\ pairType st = t
    /\ (worldIndependent ->
        forall w2, updateAddressW s p k t w2 = (Normal st, w2)).
Proof.
  intros Hro s p k t w.
  destruct (@updateAddress_echoes (importsAt w) s p k t)
    as (st & Hst & Hs & Hp & Hk & Ht & _).
  exists st.
  assert (H1 : updateAddressW s p k t w = (Normal st, w)).
  { now rewrite (updateAddressW_reads s p k t w Hro), Hst. }
  split; [exact H1|]. split; [now rewrite H1|].
  repeat (split; [assumption|]).
  intros (Ik & Ih & Im & Ic) w2.
  rewrite (updateAddressW_reads s p k t w2 Hro). f_equal.
  rewrite <- Hst. apply updateAddress_agree; intros; cbn; auto.
Qed.

End Worlds.

(* ------------------------------------------------------------------ *)
(** ** [updateAddress] in the two reference worlds *)

Module WorldExamples.

Lemma reading_readOnly : @Effectful.readOnly ReferenceWorld.reading.
Proof. repeat split. Qed.

(** C9 in the world where [createFromUri] reads the address format. *)
Lemma updateAddress_same_inputs_same_state_witness :
  @Effectful.readOnly ReferenceWorld.reading
  /\ exists st,
       @Effectful.updateAddressW ReferenceWorld.reading
         (lit "abc") (lit "//hard") raw sr25519 7%N = (Normal st, 7%N)
       /\ @Effectful.updateAddressW ReferenceWorld.reading
            (lit "abc") (lit "//hard") raw sr25519
            (snd (@Effectful.updateAddressW ReferenceWorld.reading
                    (lit "abc") (lit "//hard") raw sr25519 7%N))
          = (Normal st, 7%N)
       /\ address st <> None.
Proof.
  split; [exact reading_readOnly|].
  destruct (@updateAddress_same_inputs_same_state ReferenceWorld.reading
              reading_readOnly (lit "abc") (lit "//hard") raw sr25519 7%N)
    as (st & H1 & H2 & _).
  exists st. split; [exact H1|]. split; [exact H2|].
  vm_compute in H1. injection H1 as <-. discriminate.
Defined.

(** Where [createFromUri] advances the world, the second of two calls with
    the same arguments returns another state; where it only reads the
    world, calls made in different worlds do. *)
Example updateAddress_differs_when_imports_write :
  let first := @Effectful.updateAddressW ReferenceWorld.counting
                 (lit "abc") [] raw sr25519 0%N in
  fst first
  <> fst (@Effectful.updateAddressW ReferenceWorld.counting
            (lit "abc") [] raw sr25519 (snd first)).
Proof. vm_compute. discriminate. Qed.

Example updateAddress_differs_across_worlds :
  fst (@Effectful.updateAddressW ReferenceWorld.reading
         (lit "abc") [] raw sr25519 1%N)
  <> fst (@Effectful.updateAddressW ReferenceWorld.reading
            (lit "abc") [] raw sr25519 2%N).
Proof. vm_compute. discriminate. Qed.

End WorldExamples.
